(** * Retail AI web platform (app.py): camera session, zone persistence and
      the training simulator

    A shallow embedding of [src/app.py].  [Json] holds the JSON values the
    handlers exchange and [PyNum] the arithmetic of Python's [int] and
    [float]; the three pieces of process-wide state of the program are
    modelled one module each:

    - [Zones]: the global [zone_config] document and the file
      [zones_config.json] ([save_zones], [load_zones]);
    - [Training]: the global [training_status] dictionary, the handlers
      [start_training] / [stop_training] and the background thread
      [training_worker], stepped statement by statement;
    - [Camera]: the [CameraManager] object, its methods, and the background
      thread [_capture_loop], interleaved with the request handlers.

    Library calls (cv2, json, base64, time, numpy.random) are not part of the
    program: their results enter the model as inputs of the steps that make
    the call, or as parameters of a section. *)

From Stdlib Require Import ZArith Lia Bool String Ascii DecimalString.
From Stdlib Require Import Floats.PrimFloat Floats.SpecFloat Floats.FloatOps.
From stdpp Require Import base option list.

Local Open Scope string_scope.
Local Open Scope Z_scope.
#[local] Set Warnings "-register-all,-inexact-float".

(** ** JSON values, as [request.get_json()] and [json.load] produce them *)

Module Json.

(** Python's [None], [bool], [int], [float], [str], [list] and [dict] with
    [str] keys.  A [dict] keeps its insertion order; it is an association
    list here, read at the first binding of a key. *)
Inductive json : Type :=
| JNull
| JBool (b : bool)
| JInt (z : Z)
| JFloat (f : float)
| JString (s : string)
| JList (items : list json)
| JObject (fields : list (string * json)).

(** [d.get(key)] *)
Fixpoint dict_get (key : string) (d : list (string * json)) : option json :=
  match d with
  | [] => None
  | (k, v) :: rest => if String.eqb k key then Some v else dict_get key rest
  end.

(** [d.get(key, dflt)] *)
Definition dict_get_default (key : string) (dflt : json)
    (d : list (string * json)) : json :=
  default dflt (dict_get key d).

(** [d[key] = v]: an existing key keeps its position, a new one goes last. *)
Fixpoint dict_set (key : string) (v : json) (d : list (string * json))
    : list (string * json) :=
  match d with
  | [] => [(key, v)]
  | (k, old) :: rest =>
      if String.eqb k key then (k, v) :: rest
      else (k, old) :: dict_set key v rest
  end.

Lemma dict_get_set_eq key v d : dict_get key (dict_set key v d) = Some v.
Proof.
  induction d as [|[k old] rest IH]; simpl.
  - now rewrite String.eqb_refl.
  - destruct (String.eqb k key) eqn:E; simpl; rewrite E; auto.
Qed.


Lemma dict_get_set_ne key key' v d :
  key <> key' -> dict_get key' (dict_set key v d) = dict_get key' d.
Proof.
  intros Hne. induction d as [|[k old] rest IH]; simpl.
  - destruct (String.eqb key key') eqn:E; [|reflexivity].
    apply String.eqb_eq in E. contradiction.
  - destruct (String.eqb k key) eqn:E; simpl.
    + apply String.eqb_eq in E. subst k.
      destruct (String.eqb key key') eqn:E'; [|reflexivity].
      apply String.eqb_eq in E'. contradiction.
    + now rewrite IH.
Qed.

End Json.

(** ** Zone persistence: [save_zones] and [load_zones] *)

Module Zones.
Import Json.

(** What [zones_config.json] is to a reader: absent
    ([os.path.exists] is false), present but not loadable ([open] or
    [json.load] raises), or the text of a JSON document.  [json.dump] and
    [json.load] are the library's printer and parser; the file is kept as the
    value its text denotes. *)
Inductive file : Type :=
| Absent
| Unreadable
| Holds (doc : json).

(** The global [zone_config], the file next to the program, and whether
    [open('zones_config.json', 'w')] succeeds.  It raises an [OSError] when
    the path is a directory, when the file may not be written, or when there
    is no file and none may be created. *)
Record store : Type := Store {
  zone_config : json;
  zones_file : file;
  writable : bool
}.

(** [zone_config = {'zones': [], 'image': None}] *)
Definition default_zone_config : json :=
  JObject [("zones", JList []); ("image", JNull)].

Definition initial (f : file) (w : bool) : store :=
  {| zone_config := default_zone_config; zones_file := f; writable := w |}.

(** A handler either answers with a JSON body or raises (Flask turns the
    exception into a 500 response); [exn] is the class of the exception. *)
Inductive answer : Type :=
| Body (b : json)
| Raised (exn : string).

Definition zones_saved : json :=
  JObject [("success", JBool true); ("message", JString "Zones saved")].

(** [data.get('zones', [])] on the request body. *)
Definition requested_zones (fields : list (string * json)) : json :=
  dict_get_default "zones" (JList []) fields.

(** [save_zones]: [data.get] needs a dict, and so does the item assignment
    on [zone_config], which comes first and stays when what follows raises;
    the file is then opened with mode ['w'] (truncated) and the whole of
    [zone_config] dumped into it. *)
Definition save_zones (data : json) (s : store) : store * answer :=
  match data with
  | JObject fields =>
      let zones := requested_zones fields in
      match zone_config s with
      | JObject cfg =>
          let cfg' := JObject (dict_set "zones" zones cfg) in
          if writable s then
            ({| zone_config := cfg'; zones_file := Holds cfg'; writable := true |},
             Body zones_saved)
          else
            ({| zone_config := cfg'; zones_file := zones_file s; writable := false |},
             Raised "OSError")
      | _ => (s, Raised "TypeError")
      end
  | _ => (s, Raised "AttributeError")
  end.

(** [load_zones]: the bare [except: pass] swallows a failing [open] or
    [json.load]; whatever [zone_config] is bound to afterwards is sent. *)
Definition load_zones (s : store) : store * answer :=
  match zones_file s with
  | Holds doc =>
      let s' := {| zone_config := doc; zones_file := zones_file s;
                   writable := writable s |} in
      (s', Body (zone_config s'))
  | Absent | Unreadable => (s, Body (zone_config s))
  end.

(** The requests of a run, and what happens to the file outside the
    program between them: its content is replaced, or the path becomes
    writable or stops being so. *)
Inductive event : Type :=
| Save (data : json)
| Load
| FileBecomes (f : file)
| WritableBecomes (w : bool).

Definition step (s : store) (e : event) : store :=
  match e with
  | Save data => fst (save_zones data s)
  | Load => fst (load_zones s)
  | FileBecomes f =>
      {| zone_config := zone_config s; zones_file := f; writable := writable s |}
  | WritableBecomes w =>
      {| zone_config := zone_config s; zones_file := zones_file s; writable := w |}
  end.

Definition run (events : list event) (s : store) : store :=
  fold_left step events s.

(** The example document of the specification,
    [{zones: [[[0,0],[1,0],[1,1]]]}]. *)
Definition point (x y : Z) : json := JList [JInt x; JInt y].
Definition triangle : json := JList [point 0 0; point 1 0; point 1 1].
Definition example_body : json := JObject [("zones", JList [triangle])].

(** A document as an earlier session may have left it in the file. *)
Definition stored_example : json :=
  JObject [("zones", JList [triangle]); ("image", JString "shop.png")].

(** *** Facts *)

Definition lost (f : file) : Prop := f = Absent \/ f = Unreadable.

(** An event that neither saves nor puts a loadable file in place. *)
Definition quiet (e : event) : Prop :=
  match e with
  | Save _ => False
  | Load => True
  | FileBecomes f => lost f
  | WritableBecomes _ => True
  end.

Lemma load_zones_lost s :
  lost (zones_file s) -> load_zones s = (s, Body (zone_config s)).
Proof. unfold load_zones. intros [-> | ->]; reflexivity. Qed.

Lemma quiet_step_keeps_default s e :
  lost (zones_file s) -> zone_config s = default_zone_config -> quiet e ->
  lost (zones_file (step s e)) /\ zone_config (step s e) = default_zone_config.
Proof.
  intros Hf Hc Hq. destruct e as [data| |f|w]; simpl in *.
  - contradiction.
  - rewrite (load_zones_lost s Hf). auto.
  - auto.
  - auto.
Qed.

Lemma quiet_run_keeps_default events : forall s,
  lost (zones_file s) -> zone_config s = default_zone_config ->
  Forall quiet events ->
  lost (zones_file (run events s)) /\
  zone_config (run events s) = default_zone_config.
Proof.
  induction events as [|e events IH]; intros s Hf Hc Hq; [now split|].
  inversion Hq as [|? ? He Hrest]; subst.
  destruct (quiet_step_keeps_default s e Hf Hc He) as [Hf' Hc'].
  exact (IH (step s e) Hf' Hc' Hrest).
Qed.

(** What a save whose body and [zone_config] are both objects does: the
    ['zones'] entry of [zone_config] is assigned, and the file receives the
    whole of it when it can be opened for writing. *)
Lemma save_zones_objects fields cfg prior w :
  save_zones (JObject fields)
    {| zone_config := JObject cfg; zones_file := prior; writable := w |}
  = let doc := JObject (dict_set "zones" (requested_zones fields) cfg) in
    ({| zone_config := doc; zones_file := if w then Holds doc else prior;
        writable := w |},
     if w then Body zones_saved else Raised "OSError").
Proof. unfold save_zones. simpl. now destruct w. Qed.


Lemma requested_zones_missing fields :
  dict_get "zones" fields = None -> requested_zones fields = JList [].
Proof. unfold requested_zones, dict_get_default. now intros ->. Qed.

(** [save_zones] raises, and writes nothing, when the request body is not
    an object or when [zone_config] was rebound by [load_zones] to a document
    that is not one. *)
Example save_zones_needs_objects :
  save_zones (JList []) (initial Absent true)
    = (initial Absent true, Raised "AttributeError")
  /\ snd (save_zones example_body (run [FileBecomes (Holds (JList [])); Load]
                                       (initial Absent true)))
     = Raised "TypeError".
Proof. split; reflexivity. Qed.

(** C6, as the specification states it, fails: once zones were saved, a
    file that is lost or corrupted afterwards makes [load_zones] answer with
    the zones still held in memory, not with the empty default. *)
Lemma load_zones_lost_file_not_default :
  snd (load_zones (run [Save example_body; FileBecomes Absent] (initial Absent true)))
    <> Body default_zone_config
  /\ snd (load_zones (run [Save example_body; FileBecomes Unreadable]
                          (initial Absent true)))
    <> Body default_zone_config.
Proof. split; vm_compute; discriminate. Qed.

(** C6 (amended): [load_zones] answers with the document held by the file
    when there is one, and that document becomes [zone_config]; with no file,
    or an unreadable one, it answers with [zone_config] as it stands and
    changes nothing, and that is the empty default as long as nothing was
    saved and no file was loaded before.  It never raises. *)
Theorem load_zones_file_or_memory (s : store) :
  (forall doc, zones_file s = Holds doc ->
     load_zones s = ({| zone_config := doc; zones_file := Holds doc;
                        writable := writable s |}, Body doc))
  /\ (lost (zones_file s) -> load_zones s = (s, Body (zone_config s)))
  /\ (forall f w events, lost f -> Forall quiet events ->
       snd (load_zones (run events (initial f w))) = Body default_zone_config)
  /\ (exists doc, snd (load_zones s) = Body doc).
Proof.
  repeat split.
  - intros doc Hdoc. unfold load_zones. now rewrite Hdoc.
  - apply load_zones_lost.
  - intros f w events Hf Hq.
    destruct (quiet_run_keeps_default events (initial f w) Hf eq_refl Hq) as [Hf' Hc'].
    rewrite (load_zones_lost _ Hf'). simpl. now rewrite Hc'.
  - unfold load_zones. destruct (zones_file s); eauto.
Qed.



(** C8: saving [{zones: z}] and then loading answers with the document that
    was written, whose ['zones'] entry is [z]; from the initial
    configuration the example of the specification comes back with its zones
    and the untouched [image] entry.  A save that cannot open the file for
    writing raises: nothing was saved. *)
Theorem save_then_load_roundtrip (z : json) (cfg : list (string * json)) (prior : file) :
  let s := {| zone_config := JObject cfg; zones_file := prior; writable := true |} in
  let saved := fst (save_zones (JObject [("zones", z)]) s) in
  snd (save_zones (JObject [("zones", z)]) s) = Body zones_saved
  /\ load_zones saved = (saved, Body (zone_config saved))
  /\ zones_file saved = Holds (zone_config saved)
  /\ zone_config saved = JObject (dict_set "zones" z cfg)
  /\ dict_get "zones" (dict_set "zones" z cfg) = Some z
  /\ snd (load_zones (fst (save_zones example_body (initial prior true))))
      = Body (JObject [("zones", JList [triangle]); ("image", JNull)])
  /\ snd (save_zones (JObject [("zones", z)])
            {| zone_config := JObject cfg; zones_file := prior; writable := false |})
     = Raised "OSError".
Proof.
  repeat split. apply dict_get_set_eq.
Qed.

End Zones.

(** ** Python numbers: [int] as [Z], [float] as IEEE 754 binary64 *)

Module PyNum.

(** An expression either has a value or raises; [msg] is [str(e)] of the
    exception. *)
Inductive py (A : Type) : Type :=
| Value (a : A)
| Raise (msg : string).
Arguments Value {A} a.
Arguments Raise {A} msg.

Definition and_then {A B : Type} (x : py A) (f : A -> py B) : py B :=
  match x with
  | Value a => f a
  | Raise msg => Raise msg
  end.

(** [float(z)]: the nearest double, ties to even; [OverflowError] beyond
    the largest double. *)
Definition float_of_int (z : Z) : py float :=
  match binary_normalize prec emax z 0 false with
  | S754_infinity _ | S754_nan => Raise "int too large to convert to float"
  | x => Value (SF2Prim x)
  end.

(** [int(f)]: truncation toward zero; [ValueError] on a NaN,
    [OverflowError] on an infinity. *)
Definition int_of_float (f : float) : py Z :=
  match Prim2SF f with
  | S754_zero _ => Value 0
  | S754_finite s m e =>
      let magnitude :=
        if (0 <=? e)%Z then Z.pos m * 2 ^ e else Z.pos m / 2 ^ (- e) in
      Value (if s then - magnitude else magnitude)
  | S754_infinity _ => Raise "cannot convert float infinity to integer"
  | S754_nan => Raise "cannot convert float NaN to integer"
  end.

(** [a / b] on two [int]s: the exact quotient rounded once to the nearest
    double; [ZeroDivisionError] for [b = 0], [OverflowError] when the
    quotient is beyond the largest double. *)
Definition int_true_div (a b : Z) : py float :=
  let operand (z : Z) : spec_float :=
    match z with
    | Z0 => S754_zero false
    | Z.pos m => S754_finite false m 0
    | Z.neg m => S754_finite true m 0
    end in
  if (b =? 0)%Z then Raise "division by zero"
  else match SFdiv prec emax (operand a) (operand b) with
       | S754_infinity _ | S754_nan =>
           Raise "integer division result too large for a float"
       | q => Value (SF2Prim q)
       end.

(** [str(z)] *)
Definition str_of_int (z : Z) : string := NilZero.string_of_int (Z.to_int z).

(** [n / d] rounded to the nearest integer, ties to even ([0 <= n],
    [0 < d]). *)
Definition round_half_even (n d : Z) : Z :=
  let q := n / d in
  match Z.compare (2 * (n mod d)) d with
  | Lt => q
  | Eq => if Z.even q then q else q + 1
  | Gt => q + 1
  end.

(** The four digits after the point. *)
Definition four_digits (z : Z) : string :=
  let d := str_of_int z in
  match String.length d with
  | 1%nat => "000" ++ d
  | 2%nat => "00" ++ d
  | 3%nat => "0" ++ d
  | _ => d
  end.

(** [f'{x:.4f}']: the decimal expansion of the double, correctly rounded
    to four places. *)
Definition format_4f (x : float) : string :=
  match Prim2SF x with
  | S754_nan => "nan"
  | S754_infinity s => if s then "-inf" else "inf"
  | S754_zero s => (if s then "-" else "") ++ "0.0000"
  | S754_finite s m e =>
      let scaled :=
        if (0 <=? e)%Z then Z.pos m * 2 ^ e * 10000
        else round_half_even (Z.pos m * 10000) (2 ^ (- e)) in
      (if s then "-" else "")
        ++ str_of_int (scaled / 10000) ++ "." ++ four_digits (scaled mod 10000)
  end.

Example float_of_int_3 : float_of_int 3 = Value 3%float.
Proof. reflexivity. Qed.

Example int_of_float_neg : int_of_float (-2.75)%float = Value (-2).
Proof. reflexivity. Qed.

Example int_true_div_third :
  int_true_div 1 3 = Value (1 / 3)%float
  /\ int_true_div 1 0 = Raise "division by zero".
Proof. split; reflexivity. Qed.

Example format_4f_samples :
  format_4f 2.5%float = "2.5000"
  /\ format_4f (-0.03125)%float = "-0.0312"
  /\ format_4f 0.09375%float = "0.0938"
  /\ format_4f 1234.5%float = "1234.5000".
Proof. repeat split. Qed.

End PyNum.

(** ** The training simulator: [training_status], its handlers and
       [training_worker] *)

Module Training.
Import Json PyNum.

(** The global [training_status] dictionary.  Every access of the program
    goes through the global name, so the dictionary the handlers rebind and
    the one the worker writes are the same object at each step. *)
Record training_status : Type := Status {
  is_training : bool;
  progress : Z;
  epoch : Z;
  total_epochs : Z;
  loss : float;
  accuracy : float;
  message : string
}.

Definition initial_status : training_status :=
  {| is_training := false; progress := 0; epoch := 0; total_epochs := 0;
     loss := 0; accuracy := 0; message := "Not started" |}.

Definition set_is_training (b : bool) (st : training_status) :=
  {| is_training := b; progress := progress st; epoch := epoch st;
     total_epochs := total_epochs st; loss := loss st;
     accuracy := accuracy st; message := message st |}.
Definition set_progress (p : Z) (st : training_status) :=
  {| is_training := is_training st; progress := p; epoch := epoch st;
     total_epochs := total_epochs st; loss := loss st;
     accuracy := accuracy st; message := message st |}.
Definition set_epoch (k : Z) (st : training_status) :=
  {| is_training := is_training st; progress := progress st; epoch := k;
     total_epochs := total_epochs st; loss := loss st;
     accuracy := accuracy st; message := message st |}.
Definition set_loss (x : float) (st : training_status) :=
  {| is_training := is_training st; progress := progress st; epoch := epoch st;
     total_epochs := total_epochs st; loss := x;
     accuracy := accuracy st; message := message st |}.
Definition set_accuracy (x : float) (st : training_status) :=
  {| is_training := is_training st; progress := progress st; epoch := epoch st;
     total_epochs := total_epochs st; loss := loss st;
     accuracy := x; message := message st |}.
Definition set_message (m : string) (st : training_status) :=
  {| is_training := is_training st; progress := progress st; epoch := epoch st;
     total_epochs := total_epochs st; loss := loss st;
     accuracy := accuracy st; message := m |}.

(** *** The worker thread *)

(** Where [training_worker] stands: one constructor per statement, with
    the value of the loop variable where there is one. *)
Inductive worker_pc : Type :=
| AtFor (k : Z)           (* [for epoch in range(epochs)]: next value or exhausted *)
| AtStopCheck (k : Z)     (* [if not training_status['is_training']: break] *)
| AtSleep (k : Z)         (* [time.sleep(2)] *)
| AtEpoch (k : Z)         (* [training_status['epoch'] = epoch + 1] *)
| AtProgress (k : Z)      (* [training_status['progress'] = int(...)] *)
| AtLoss (k : Z)          (* [training_status['loss'] = ...] *)
| AtAccuracy (k : Z)      (* [training_status['accuracy'] = ...] *)
| AtMessage (k : Z)       (* [training_status['message'] = f'Epoch ...'] *)
| AtCompleted             (* [if training_status['is_training']: ...] *)
| AtExcept (msg : string) (* [except Exception as e: ...], with [str(e)] *)
| AtFinally               (* [training_status['is_training'] = False] *)
| Finished.

(** The thread: its arguments and where it stands. *)
Record worker : Type := Worker {
  training_type : json;
  epochs : Z;
  pc : worker_pc
}.

Definition goto (p : worker_pc) (w : worker) : worker :=
  {| training_type := training_type w; epochs := epochs w; pc := p |}.

(** [int((epoch + 1) / epochs * 100)] *)
Definition progress_of (k n : Z) : py Z :=
  and_then (int_true_div (k + 1) n) (fun q => int_of_float (q * 100)%float).

(** [2.5 - (epoch * 0.2) + np.random.random() * 0.1] *)
Definition loss_of (k : Z) (rnd : float) : py float :=
  and_then (float_of_int k) (fun e => Value (2.5 - e * 0.2 + rnd * 0.1)%float).

(** [50 + (epoch * 4) + np.random.random() * 2] *)
Definition accuracy_of (k : Z) (rnd : float) : py float :=
  and_then (float_of_int (50 + k * 4)) (fun base => Value (base + rnd * 2)%float).

(** [f'Epoch {epoch+1}/{epochs} - Loss: {training_status["loss"]:.4f}'] *)
Definition epoch_message (k n : Z) (l : float) : string :=
  "Epoch " ++ str_of_int (k + 1) ++ "/" ++ str_of_int n
    ++ " - Loss: " ++ format_4f l.

(** One statement of the worker.  [rnd] is what [np.random.random()]
    returns if this statement calls it.  A statement that raises passes
    control to the [except] clause. *)
Definition training_worker_step (rnd : float) (st : training_status) (w : worker)
    : training_status * worker :=
  match pc w with
  | AtFor k =>
      (st, goto (if k <? epochs w then AtStopCheck k else AtCompleted) w)
  | AtStopCheck k =>
      (st, goto (if is_training st then AtSleep k else AtCompleted) w)
  | AtSleep k => (st, goto (AtEpoch k) w)
  | AtEpoch k => (set_epoch (k + 1) st, goto (AtProgress k) w)
  | AtProgress k =>
      match progress_of k (epochs w) with
      | Value p => (set_progress p st, goto (AtLoss k) w)
      | Raise msg => (st, goto (AtExcept msg) w)
      end
  | AtLoss k =>
      match loss_of k rnd with
      | Value l => (set_loss l st, goto (AtAccuracy k) w)
      | Raise msg => (st, goto (AtExcept msg) w)
      end
  | AtAccuracy k =>
      match accuracy_of k rnd with
      | Value a => (set_accuracy a st, goto (AtMessage k) w)
      | Raise msg => (st, goto (AtExcept msg) w)
      end
  | AtMessage k =>
      (set_message (epoch_message k (epochs w) (loss st)) st,
       goto (AtFor (k + 1)) w)
  | AtCompleted =>
      ((if is_training st then set_message "Training completed!" st else st),
       goto AtFinally w)
  | AtExcept msg => (set_message ("Error: " ++ msg) st, goto AtFinally w)
  | AtFinally => (set_is_training false st, goto Finished w)
  | Finished => (st, w)
  end.

(** The worker running on its own for [n] statements from time [t], with
    [rnd t'] the random draw available to the statement run at time [t'].
    The result carries the statements that were run, in order. *)
Fixpoint run_worker (rnd : nat -> float) (n t : nat)
    (st : training_status) (w : worker)
    : training_status * worker * list worker_pc :=
  match n with
  | O => (st, w, [])
  | S n' =>
      let '(st', w') := training_worker_step (rnd t) st w in
      let '(st'', w'', ran) := run_worker rnd n' (S t) st' w' in
      (st'', w'', pc w :: ran)
  end.

(** An epoch advance is a run of the statement that stores the new
    [epoch]; the statements after it store the figures that go with it. *)
Definition is_advance (p : worker_pc) : bool :=
  match p with AtEpoch _ => true | _ => false end.

Definition advances (ran : list worker_pc) : nat :=
  length (filter (fun p => is_advance p = true) ran).

(** The epoch boundary: the head of the loop, where the next value is
    taken and the flag is read. *)
Definition at_boundary (p : worker_pc) : bool :=
  match p with AtFor _ | AtStopCheck _ => true | _ => false end.

(** *** The handlers *)

(** [{'success': ..., 'message': ...}] *)
Record reply : Type := Reply { success : bool; reply_message : string }.

(** A handler answers, and may have started a thread, or raises (a 500
    response); [msg] is the text of the exception. *)
Inductive outcome : Type :=
| Answered (r : reply) (started : option worker)
| Raised (msg : string).

(** The [AlreadyRunning] error of the specification. *)
Definition already_running : reply :=
  {| success := false; reply_message := "Training already in progress" |}.

Definition training_started : reply :=
  {| success := true; reply_message := "Training started" |}.

(** The dictionary [start_training] rebinds [training_status] to. *)
Definition reset_status (n : Z) : training_status :=
  {| is_training := true; progress := 0; epoch := 0; total_epochs := n;
     loss := 0; accuracy := 0; message := "Starting training..." |}.

(** [threading.Thread(target=training_worker, args=(training_type, epochs))] *)
Definition new_worker (ty : json) (n : Z) : worker :=
  {| training_type := ty; epochs := n; pc := AtFor 0 |}.

Section Handlers.

(** The built-in [int] on a [str]. *)
Variable int_of_str : string -> py Z.

(** [int(x)] on a JSON value. *)
Definition py_int (x : json) : py Z :=
  match x with
  | JInt z => Value z
  | JBool b => Value (if b then 1 else 0)
  | JFloat f => int_of_float f
  | JString s => int_of_str s
  | JNull | JList _ | JObject _ =>
      Raise "int() argument must be a string, a bytes-like object or a real number"
  end.

Definition start_training (data : json) (st : training_status)
    : training_status * outcome :=
  if is_training st then (st, Answered already_running None)
  else
    match data with
    | JObject fields =>
        let ty := dict_get_default "type" (JString "detection") fields in
        match py_int (dict_get_default "epochs" (JInt 10) fields) with
        | Value n =>
            (reset_status n, Answered training_started (Some (new_worker ty n)))
        | Raise msg => (st, Raised msg)
        end
    | _ => (st, Raised "object has no attribute 'get'")
    end.

End Handlers.

Definition get_training_status (st : training_status) : training_status := st.

Definition stop_training (st : training_status) : training_status * reply :=
  (set_message "Training stopped by user" (set_is_training false st),
   {| success := true; reply_message := "Training stopped" |}).

(** *** The handlers and the workers together *)

(** The process: the global [training_status] and the threads started so
    far, by rank of start.  All of them read and write the one global. *)
Record process : Type := Process {
  status : training_status;
  threads : list worker
}.

Definition idle : process := {| status := initial_status; threads := [] |}.

(** What happens in a run: a request to one of the two handlers, run in one
    piece, or one statement of a thread, with the random draw it gets. *)
Inductive event : Type :=
| CallStart (data : json)
| CallStop
| WorkerStep (i : nat) (rnd : float).

Section Running.

Variable int_of_str : string -> py Z.

Definition step (p : process) (e : event) : process :=
  match e with
  | CallStart data =>
      let r := start_training int_of_str data (status p) in
      {| status := r.1;
         threads := match r.2 with
                    | Answered _ (Some w) => (threads p ++ [w])%list
                    | _ => threads p
                    end |}
  | CallStop => {| status := (stop_training (status p)).1; threads := threads p |}
  | WorkerStep i rnd =>
      match threads p !! i with
      | Some w =>
          let r := training_worker_step rnd (status p) w in
          {| status := r.1; threads := <[i := r.2]> (threads p) |}
      | None => p
      end
  end.

Definition run (events : list event) (p : process) : process :=
  fold_left step events p.

(** The statements the threads run in [events], each with its thread. *)
Fixpoint trace (events : list event) (p : process) : list (nat * worker_pc) :=
  match events with
  | [] => []
  | e :: rest =>
      match e with
      | WorkerStep i _ =>
          match threads p !! i with
          | Some w => (i, pc w) :: trace rest (step p e)
          | None => trace rest (step p e)
          end
      | _ => trace rest (step p e)
      end
  end.

(** The epoch advances of thread [i] in [events]. *)
Definition advances_of (i : nat) (events : list event) (p : process) : nat :=
  length (filter (fun x => (Nat.eqb x.1 i && is_advance x.2) = true)
                 (trace events p)).

End Running.

Definition is_worker_step (e : event) : bool :=
  match e with WorkerStep _ _ => true | _ => false end.

(** [n] statements of thread [i], with the draws [rnd 0], [rnd 1], ... *)
Definition statements (i : nat) (rnd : nat -> float) (n : nat) : list event :=
  map (fun k => WorkerStep i (rnd k)) (seq 0 n).

(** A one-epoch job whose worker has gone to sleep, [time.sleep(2)], when
    the job is stopped. *)
Definition stopped_job : list event :=
  [CallStart (JObject [("epochs", JInt 1)]);
   WorkerStep 0 0.5; WorkerStep 0 0.5;
   CallStop].

(** What the threads do after the three-epoch job was started: its worker
    goes to sleep; the worker of the stopped job wakes up and runs to its
    end; the worker of the new job runs on. *)
Definition both_workers (rnd : nat -> float) : list event :=
  (statements 1 rnd 2 ++ statements 0 rnd 9 ++ statements 1 rnd 10)%list.

(** *** Facts about a worker that runs while the flag is down *)

(** The statements from which, with the flag down, nothing of the status
    is written any more: the loop head, and the way out through
    [finally]. *)
Definition quiescent (p : worker_pc) : bool :=
  match p with
  | AtFor _ | AtStopCheck _ | AtCompleted | AtFinally | Finished => true
  | _ => false
  end.

(** Epoch advances still to come once the flag is down: the epoch whose
    sleep has begun is finished, and no other. *)
Definition pending_advances (p : worker_pc) : nat :=
  match p with AtSleep _ | AtEpoch _ => 1 | _ => 0 end.

(** Statements left before the thread ends, once the flag is down. *)
Definition statements_left (p : worker_pc) : nat :=
  match p with
  | AtSleep _ => 10 | AtEpoch _ => 9 | AtProgress _ => 8 | AtLoss _ => 7
  | AtAccuracy _ => 6 | AtMessage _ => 5 | AtFor _ => 4 | AtStopCheck _ => 3
  | AtCompleted | AtExcept _ => 2 | AtFinally => 1 | Finished => 0
  end.

Ltac step_cases w H :=
  let p := fresh "p" in
  destruct w as [? ? p]; destruct p; unfold training_worker_step, goto; simpl;
  rewrite ?H;
  repeat match goal with
    | |- context [match ?x with Value _ => _ | Raise _ => _ end] => destruct x
    | |- context [if ?b then _ else _] => destruct b
    end; simpl.

Lemma set_is_training_same st :
  is_training st = false -> set_is_training false st = st.
Proof. destruct st; simpl; intros ->; reflexivity. Qed.

Lemma step_keeps_flag_down rnd st w :
  is_training st = false -> is_training (training_worker_step rnd st w).1 = false.
Proof. intros H. step_cases w H; auto. Qed.

Lemma step_quiescent rnd st w :
  is_training st = false -> quiescent (pc w) = true ->
  (training_worker_step rnd st w).1 = st
  /\ quiescent (pc (training_worker_step rnd st w).2) = true
  /\ is_advance (pc w) = false.
Proof.
  intros H Hq. destruct w as [ty n p]; destruct p; simpl in Hq;
    try discriminate; unfold training_worker_step, goto; simpl; rewrite ?H;
    repeat split; auto using set_is_training_same.
  destruct (k <? n); reflexivity.
Qed.

Lemma step_pending rnd st w :
  is_training st = false ->
  ((if is_advance (pc w) then 1 else 0)
     + pending_advances (pc (training_worker_step rnd st w).2)
   <= pending_advances (pc w))%nat.
Proof. intros H. step_cases w H; lia. Qed.

Lemma step_statements_left rnd st w :
  is_training st = false ->
  (statements_left (pc (training_worker_step rnd st w).2)
   <= statements_left (pc w) - 1)%nat.
Proof. intros H. step_cases w H; lia. Qed.

Lemma advances_cons p ran :
  advances (p :: ran) = ((if is_advance p then 1 else 0) + advances ran)%nat.
Proof. unfold advances. destruct p; reflexivity. Qed.

Lemma run_worker_S rnd n t st w :
  run_worker rnd (S n) t st w =
  let r := run_worker rnd n (S t) (training_worker_step (rnd t) st w).1
                                   (training_worker_step (rnd t) st w).2 in
  (r.1.1, r.1.2, pc w :: r.2).
Proof.
  simpl. destruct (training_worker_step (rnd t) st w) as [st' w']. simpl.
  destruct (run_worker rnd n (S t) st' w') as [[st'' w''] ran]. reflexivity.
Qed.

Lemma run_worker_add rnd n m : forall t st w,
  run_worker rnd (n + m) t st w =
  let r := run_worker rnd n t st w in
  let r' := run_worker rnd m (t + n) r.1.1 r.1.2 in
  (r'.1.1, r'.1.2, (r.2 ++ r'.2)%list).
Proof.
  induction n as [|n IH]; intros t st w.
  - simpl. rewrite Nat.add_0_r.
    destruct (run_worker rnd m t st w) as [[? ?] ?]. reflexivity.
  - change (S n + m)%nat with (S (n + m)). rewrite !run_worker_S, IH. simpl.
    now replace (t + S n)%nat with (S t + n)%nat by lia.
Qed.

Lemma run_keeps_flag_down rnd n : forall t st w,
  is_training st = false -> is_training (run_worker rnd n t st w).1.1 = false.
Proof.
  induction n as [|n IH]; intros t st w H; [exact H|].
  rewrite run_worker_S. simpl. apply IH. now apply step_keeps_flag_down.
Qed.

Lemma run_quiescent rnd n : forall t st w,
  is_training st = false -> quiescent (pc w) = true ->
  let r := run_worker rnd n t st w in
  r.1.1 = st /\ quiescent (pc r.1.2) = true /\ advances r.2 = 0%nat.
Proof.
  induction n as [|n IH]; intros t st w H Hq; [now repeat split|].
  destruct (step_quiescent (rnd t) st w H Hq) as (Hst & Hq' & Hadv).
  rewrite run_worker_S. simpl. rewrite advances_cons, Hadv.
  specialize (IH (S t) _ _ (step_keeps_flag_down (rnd t) st w H) Hq').
  simpl in IH. destruct IH as (IH1 & IH2 & IH3).
  repeat split; [congruence | assumption | now rewrite IH3].
Qed.

Lemma run_pending rnd n : forall t st w,
  is_training st = false ->
  (advances (run_worker rnd n t st w).2 <= pending_advances (pc w))%nat.
Proof.
  induction n as [|n IH]; intros t st w H; [simpl; unfold advances; simpl; lia|].
  rewrite run_worker_S. simpl. rewrite advances_cons.
  pose proof (step_pending (rnd t) st w H).
  pose proof (IH (S t) _ (training_worker_step (rnd t) st w).2
                 (step_keeps_flag_down (rnd t) st w H)).
  lia.
Qed.

Lemma run_statements_left rnd n : forall t st w,
  is_training st = false ->
  (statements_left (pc (run_worker rnd n t st w).1.2)
   <= statements_left (pc w) - n)%nat.
Proof.
  induction n as [|n IH]; intros t st w H; [simpl; lia|].
  rewrite run_worker_S. simpl.
  pose proof (step_statements_left (rnd t) st w H).
  pose proof (IH (S t) _ (training_worker_step (rnd t) st w).2
                 (step_keeps_flag_down (rnd t) st w H)).
  lia.
Qed.

Lemma statements_left_0 p : statements_left p = 0%nat -> p = Finished.
Proof. destruct p; simpl; intros; congruence. Qed.

Lemma statements_left_bound p : (statements_left p <= 10)%nat.
Proof. destruct p; simpl; lia. Qed.

Lemma at_boundary_quiescent p : at_boundary p = true -> quiescent p = true.
Proof. destruct p; simpl; congruence. Qed.

Lemma run_finished rnd n : forall t st w,
  pc w = Finished -> run_worker rnd n t st w = (st, w, repeat Finished n).
Proof.
  induction n as [|n IH]; intros t st w H; [reflexivity|].
  rewrite run_worker_S. unfold training_worker_step. rewrite H. simpl.
  now rewrite (IH (S t) st w H).
Qed.

Lemma advances_finished n : advances (repeat Finished n) = 0%nat.
Proof. induction n as [|n IH]; [reflexivity|]. simpl. now rewrite advances_cons. Qed.

Lemma advances_app ran ran' :
  advances (ran ++ ran') = (advances ran + advances ran')%nat.
Proof. unfold advances. now rewrite filter_app, length_app. Qed.

(** *** The claims on the training simulator *)

(** C3: once [stop_training] has run, the flag is down and stays down
    while the worker runs; the worker completes at most the epoch whose sleep
    had begun, and none when the stop falls on the loop head; from the loop
    head on it writes nothing more to the status; and it has ended after ten
    statements at most. *)
Theorem stop_training_halts_worker (rnd : nat -> float)
    (st : training_status) (w : worker) (n t : nat) :
  let stopped := (stop_training st).1 in
  let r := run_worker rnd n t stopped w in
  is_training stopped = false
  /\ is_training r.1.1 = false
  /\ (advances r.2 <= 1)%nat
  /\ (at_boundary (pc w) = true -> advances r.2 = 0%nat /\ r.1.1 = stopped)
  /\ (quiescent (pc r.1.2) = true ->
      forall m t', let r' := run_worker rnd m t' r.1.1 r.1.2 in
                   advances r'.2 = 0%nat /\ r'.1.1 = r.1.1)
  /\ (10 <= n -> pc r.1.2 = Finished)%nat.
Proof.
  intros stopped r.
  assert (Hdown : is_training stopped = false) by reflexivity.
  assert (Hr : is_training r.1.1 = false) by now apply run_keeps_flag_down.
  repeat apply conj; auto.
  - pose proof (run_pending rnd n t stopped w Hdown) as H.
    fold r in H. destruct (pc w); simpl in H; lia.
  - intros Hb. apply at_boundary_quiescent in Hb.
    destruct (run_quiescent rnd n t stopped w Hdown Hb) as (H1 & _ & H3). auto.
  - intros Hq m t'.
    destruct (run_quiescent rnd m t' r.1.1 r.1.2 Hr Hq) as (H1 & _ & H3). auto.
  - intros Hn. apply statements_left_0.
    pose proof (run_statements_left rnd n t stopped w Hdown) as H.
    fold r in H. pose proof (statements_left_bound (pc w)). lia.
Qed.

(** C4: while a job is running, [start_training] answers
    [{'success': False, 'message': 'Training already in progress'}], starts
    no thread and leaves [training_status] as it is. *)
Theorem start_training_while_running (int_of_str : string -> py Z)
    (data : json) (st : training_status) :
  is_training st = true ->
  start_training int_of_str data st = (st, Answered already_running None).
Proof. intros H. unfold start_training. now rewrite H. Qed.

(** The twenty-seven statements of a three-epoch job that nobody stops. *)
Lemma three_epochs_statements (rnd : nat -> float) (ty : json) :
  let r := run_worker rnd 27 0 (reset_status 3) (new_worker ty 3) in
  pc r.1.2 = Finished
  /\ r.2 = [AtFor 0; AtStopCheck 0; AtSleep 0; AtEpoch 0; AtProgress 0;
            AtLoss 0; AtAccuracy 0; AtMessage 0;
            AtFor 1; AtStopCheck 1; AtSleep 1; AtEpoch 1; AtProgress 1;
            AtLoss 1; AtAccuracy 1; AtMessage 1;
            AtFor 2; AtStopCheck 2; AtSleep 2; AtEpoch 2; AtProgress 2;
            AtLoss 2; AtAccuracy 2; AtMessage 2;
            AtFor 3; AtCompleted; AtFinally]
  /\ epoch r.1.1 = 3 /\ progress r.1.1 = 100
  /\ is_training r.1.1 = false
  /\ message r.1.1 = "Training completed!".
Proof. cbv zeta. repeat apply conj; lazy; reflexivity. Qed.

Lemma filter_advance_finished n :
  filter (fun p => is_advance p = true) (repeat Finished n) = [].
Proof. induction n as [|n IH]; [reflexivity|exact IH]. Qed.

(** A job started with [epochs = 3] whose worker is the only thread that
    runs: it makes the epoch update three times, for epochs 0, 1 and 2, and
    then ends with [progress = 100], the flag down and the message of
    completion, whatever the random draws. *)
Theorem three_epochs_run_to_completion (int_of_str : string -> py Z)
    (rnd : nat -> float) (ty : json) (st : training_status) (more : nat) :
  is_training st = false ->
  start_training int_of_str (JObject [("type", ty); ("epochs", JInt 3)]) st
    = (reset_status 3, Answered training_started (Some (new_worker ty 3)))
  /\ let r := run_worker rnd (27 + more) 0 (reset_status 3) (new_worker ty 3) in
     pc r.1.2 = Finished
     /\ filter (fun p => is_advance p = true) r.2 = [AtEpoch 0; AtEpoch 1; AtEpoch 2]
     /\ advances r.2 = 3%nat
     /\ epoch r.1.1 = 3
     /\ progress r.1.1 = 100
     /\ is_training r.1.1 = false
     /\ message r.1.1 = "Training completed!".
Proof.
  intros H. split.
  { unfold start_training. rewrite H. reflexivity. }
  cbv zeta. rewrite run_worker_add. cbv zeta.
  pose proof (three_epochs_statements rnd ty) as Hr. cbv zeta in Hr.
  destruct (run_worker rnd 27 0 (reset_status 3) (new_worker ty 3))
    as [[st1 w1] ran].
  cbn [fst snd] in *.
  destruct Hr as (Hpc & Hran & Hep & Hpr & Hfl & Hmsg).
  rewrite (run_finished rnd more _ st1 w1 Hpc). cbn [fst snd].
  repeat apply conj; try assumption.
  - rewrite filter_app, filter_advance_finished, Hran. reflexivity.
  - rewrite advances_app, advances_finished, Hran. reflexivity.
Qed.

(** C5, on the code: a job started with [epochs = 3] that is sent no stop
    does not run its three epochs when the worker of a job stopped just
    before is still asleep.  [stop_training] lowers the flag, so the guard of
    [start_training] lets the new job in; the old worker then wakes up,
    writes its epoch into the new status and, in its [finally], lowers the
    flag of the new job; the new worker finds the flag down at its second
    stop check and leaves.  The job ends after one epoch advance, with
    [progress] 33 and no message of completion. *)
Theorem second_job_cut_short (int_of_str : string -> py Z) (rnd : nat -> float) :
  let before := run int_of_str stopped_job idle in
  let started := step int_of_str before (CallStart (JObject [("epochs", JInt 3)])) in
  let final := run int_of_str (both_workers rnd) started in
  is_training (status before) = false
  /\ status started = reset_status 3
  /\ threads started = [goto (AtSleep 0) (new_worker (JString "detection") 1);
                        new_worker (JString "detection") 3]
  /\ forallb is_worker_step (both_workers rnd) = true
  /\ map pc (threads final) = [Finished; Finished]
  /\ advances_of int_of_str 1 (both_workers rnd) started = 1%nat
  /\ epoch (status final) = 1
  /\ progress (status final) = 33
  /\ total_epochs (status final) = 3
  /\ is_training (status final) = false
  /\ message (status final) = epoch_message 0 3 (loss (status final))
  /\ message (status final) <> "Training completed!"
  /\ message (status (run int_of_str (both_workers (fun _ => 0.5%float)) started))
     = "Epoch 1/3 - Loss: 2.5500".
Proof.
  cbv zeta. repeat apply conj; try (lazy; reflexivity).
  lazy. discriminate.
Qed.

(** *** The theorems at work on a concrete job *)

(** A stand-in for the built-in [int] on strings: it accepts none. *)
Definition toy_int_of_str (s : string) : py Z :=
  Raise "invalid literal for int() with base 10".

(** A job in the middle of its second epoch. *)
Definition midway : training_status :=
  {| is_training := true; progress := 33; epoch := 1; total_epochs := 3;
     loss := 2.55; accuracy := 51; message := "Epoch 1/3 - Loss: 2.5500" |}.

Lemma start_training_while_running_witness :
  is_training midway = true
  /\ start_training toy_int_of_str (JObject [("epochs", JInt 5)]) midway
     = (midway, Answered already_running None).
Proof.
  split; [reflexivity|].
  apply (start_training_while_running toy_int_of_str
           (JObject [("epochs", JInt 5)]) midway).
  reflexivity.
Defined.

Lemma three_epochs_run_to_completion_witness :
  is_training initial_status = false
  /\ let r := run_worker (fun _ => 0.5%float) 27 0
                 (reset_status 3) (new_worker (JString "detection") 3) in
     pc r.1.2 = Finished /\ advances r.2 = 3%nat /\ progress r.1.1 = 100.
Proof.
  split; [reflexivity|].
  destruct (three_epochs_run_to_completion toy_int_of_str (fun _ => 0.5%float)
              (JString "detection") initial_status 0 eq_refl)
    as (_ & Hpc & _ & Hadv & _ & Hpr & _).
  repeat apply conj; assumption.
Defined.

End Training.

(** ** The camera session: [CameraManager] and its capture thread *)

Module Camera.
Import Json.
Local Open Scope list_scope.

(** A [cv2.VideoCapture] object, named by its rank of creation. *)
Definition handle : Type := nat.

(** A decoded frame (the array [read()] returns), as its pixel buffer. *)
Definition image : Type := list Z.

(** The threads that use [self.lock]: the capture threads, by rank of
    start, and the calls of [get_frame_base64], by rank of arrival. *)
Inductive thread : Type :=
| CaptureThread (i : nat)
| FrameRequest (j : nat).

(** The fields of the [CameraManager] object.  [camera_id] is [None] as
    [__init__] and [disconnect] leave it, or the argument of the last
    [connect] or [connect_ip] that succeeded: the [int] given to [connect],
    or whatever value the request held under ['url'].  [lock] is the
    thread inside a [with self.lock] block, if any. *)
Record CameraManager : Type := Manager {
  camera : option handle;
  camera_id : option json;
  is_streaming : bool;
  frame : option image;
  lock : option thread
}.

(** Where a [_capture_loop] thread stands. *)
Inductive loop_pc : Type :=
| LoopTest                (* [while self.is_streaming and self.camera is not None] *)
| LoopRead                (* [ret, frame = self.camera.read()] *)
| LoopAcquire (f : image) (* [if ret:] passed, entering [with self.lock] *)
| LoopStore (f : image)   (* [self.frame = frame], lock held *)
| LoopRelease             (* leaving the [with] block, lock held *)
| LoopSleep               (* [time.sleep(0.033)] *)
| LoopExited              (* the [while] condition was false *)
| LoopCrashed.            (* [self.camera] was [None] at the read *)

(** Where a call of [get_frame_base64] stands. *)
Inductive reader_pc : Type :=
| ReadAcquire                          (* entering [with self.lock] *)
| ReadTest                             (* [if self.frame is None], lock held *)
| ReadEncode                           (* [cv2.imencode('.jpg', self.frame)], lock held *)
| ReadRelease (result : option string) (* leaving the [with] block, lock held *)
| ReadRaise                            (* [imencode] raised, leaving the block, lock held *)
| ReadReturned (result : option string)
| ReadRaised.

(** The manager, its threads, and the bookkeeping of the capture objects:
    those [release()] was called on, and how many were created. *)
Record world : Type := World {
  mgr : CameraManager;
  loops : list loop_pc;
  readers : list reader_pc;
  released : list handle;
  next_handle : handle
}.

(** [camera_mgr = CameraManager()] *)
Definition initial : world :=
  {| mgr := {| camera := None; camera_id := None; is_streaming := false;
               frame := None; lock := None |};
     loops := []; readers := []; released := []; next_handle := 0%nat |}.

Definition with_mgr (f : CameraManager -> CameraManager) (w : world) : world :=
  {| mgr := f (mgr w); loops := loops w; readers := readers w;
     released := released w; next_handle := next_handle w |}.

Definition set_camera (c : option handle) : world -> world :=
  with_mgr (fun m => {| camera := c; camera_id := camera_id m;
                        is_streaming := is_streaming m; frame := frame m;
                        lock := lock m |}).
Definition set_camera_id (s : option json) : world -> world :=
  with_mgr (fun m => {| camera := camera m; camera_id := s;
                        is_streaming := is_streaming m; frame := frame m;
                        lock := lock m |}).
Definition set_is_streaming (b : bool) : world -> world :=
  with_mgr (fun m => {| camera := camera m; camera_id := camera_id m;
                        is_streaming := b; frame := frame m;
                        lock := lock m |}).
Definition set_frame (f : option image) : world -> world :=
  with_mgr (fun m => {| camera := camera m; camera_id := camera_id m;
                        is_streaming := is_streaming m; frame := f;
                        lock := lock m |}).
Definition set_lock (t : option thread) : world -> world :=
  with_mgr (fun m => {| camera := camera m; camera_id := camera_id m;
                        is_streaming := is_streaming m; frame := frame m;
                        lock := t |}).

Definition set_loop (i : nat) (p : loop_pc) (w : world) : world :=
  {| mgr := mgr w; loops := <[i := p]> (loops w); readers := readers w;
     released := released w; next_handle := next_handle w |}.
Definition set_reader (j : nat) (p : reader_pc) (w : world) : world :=
  {| mgr := mgr w; loops := loops w; readers := <[j := p]> (readers w);
     released := released w; next_handle := next_handle w |}.

(** [h.release()] *)
Definition release (h : handle) (w : world) : world :=
  {| mgr := mgr w; loops := loops w; readers := readers w;
     released := (released w ++ [h])%list; next_handle := next_handle w |}.

(** [cv2.VideoCapture(...)] returning a new object. *)
Definition new_capture (w : world) : handle * world :=
  (next_handle w,
   {| mgr := mgr w; loops := loops w; readers := readers w;
      released := released w; next_handle := S (next_handle w) |}).

(** [threading.Thread(target=self._capture_loop, daemon=True).start()] *)
Definition start_capture_loop (w : world) : world :=
  {| mgr := mgr w; loops := (loops w ++ [LoopTest])%list; readers := readers w;
     released := released w; next_handle := next_handle w |}.

(** What the library does when a source is opened: the constructor
    raises, or it returns an object with the given answers to [isOpened()]
    and to the test [read()]. *)
Inductive capture : Type :=
| VideoCaptureRaises (exn : string)
| Captured (opened : bool) (ret : bool).

(** *** The methods, each run in one piece *)

Definition connect (camera_id : Z) (env : capture) (w : world)
    : world * (bool * string) :=
  let w := match camera (mgr w) with Some old => release old w | None => w end in
  match env with
  | VideoCaptureRaises exn => (w, (false, exn))
  | Captured opened ret =>
      let (h, w) := new_capture w in
      let w := set_camera (Some h) w in
      if negb opened then (w, (false, "Cannot open camera"))
      else if negb ret then (w, (false, "Cannot read from camera"))
      else
        let w := set_camera_id (Some (JInt camera_id)) w in
        let w := set_is_streaming true w in
        let w := start_capture_loop w in
        (w, (true, "Camera connected"))
  end.

Definition connect_ip (url : json) (env : capture) (w : world)
    : world * (bool * string) :=
  let w := match camera (mgr w) with Some old => release old w | None => w end in
  match env with
  | VideoCaptureRaises exn => (w, (false, exn))
  | Captured opened ret =>
      let (h, w) := new_capture w in
      let w := set_camera (Some h) w in
      if negb opened then (w, (false, "Cannot connect to IP camera"))
      else if negb ret then (w, (false, "Cannot read from IP camera"))
      else
        let w := set_camera_id (Some url) w in
        let w := set_is_streaming true w in
        let w := start_capture_loop w in
        (w, (true, "IP Camera connected"))
  end.

Definition disconnect (w : world) : world :=
  let w := set_is_streaming false w in
  let w := match camera (mgr w) with
           | Some h => set_camera None (release h w)
           | None => w
           end in
  let w := set_camera_id None w in
  set_frame None w.

(** The body of [camera_status]: [connected] and [camera_id]. *)
Definition camera_status (w : world) : bool * option json :=
  (bool_decide (camera (mgr w) <> None), camera_id (mgr w)).

Section Encoding.

(** [cv2.imencode('.jpg', f)]: the JPEG buffer, or [ret] false. *)
Variable imencode : image -> option (list Byte.byte).
(** [base64.b64encode(jpeg).decode('utf-8')] *)
Variable b64encode : list Byte.byte -> string.

(** [get_frame_base64], run in one piece with the lock free. *)
Definition get_frame_base64 (w : world) : option string :=
  match frame (mgr w) with
  | None => None
  | Some f =>
      match imencode f with
      | Some jpeg => Some (b64encode jpeg)
      | None => None
      end
  end.

(** *** The threads, one statement at a time *)

(** One statement of capture thread [i]; [rd] is what [read()] returns
    if this statement calls it ([None] for [ret] false).  No result when
    the thread does not exist, has ended, or waits for the lock. *)
Definition capture_loop_step (i : nat) (rd : option image) (w : world) : option world :=
  p ← loops w !! i;
  match p with
  | LoopTest =>
      Some (set_loop i (if is_streaming (mgr w) && bool_decide (camera (mgr w) <> None)
                        then LoopRead else LoopExited) w)
  | LoopRead =>
      match camera (mgr w) with
      | None => Some (set_loop i LoopCrashed w)
      | Some _ =>
          Some (set_loop i (match rd with
                            | Some f => LoopAcquire f
                            | None => LoopSleep
                            end) w)
      end
  | LoopAcquire f =>
      match lock (mgr w) with
      | None => Some (set_loop i (LoopStore f) (set_lock (Some (CaptureThread i)) w))
      | Some _ => None
      end
  | LoopStore f => Some (set_loop i LoopRelease (set_frame (Some f) w))
  | LoopRelease => Some (set_loop i LoopSleep (set_lock None w))
  | LoopSleep => Some (set_loop i LoopTest w)
  | LoopExited | LoopCrashed => None
  end.

(** One statement of frame request [j]. *)
Definition get_frame_step (j : nat) (w : world) : option world :=
  p ← readers w !! j;
  match p with
  | ReadAcquire =>
      match lock (mgr w) with
      | None => Some (set_reader j ReadTest (set_lock (Some (FrameRequest j)) w))
      | Some _ => None
      end
  | ReadTest =>
      Some (set_reader j (match frame (mgr w) with
                          | None => ReadRelease None
                          | Some _ => ReadEncode
                          end) w)
  | ReadEncode =>
      Some (set_reader j (match frame (mgr w) with
                          | None => ReadRaise
                          | Some f =>
                              match imencode f with
                              | Some jpeg => ReadRelease (Some (b64encode jpeg))
                              | None => ReadRelease None
                              end
                          end) w)
  | ReadRelease r => Some (set_reader j (ReadReturned r) (set_lock None w))
  | ReadRaise => Some (set_reader j ReadRaised (set_lock None w))
  | ReadReturned _ | ReadRaised => None
  end.

(** What happens in a run: a method call of a request handler, run in
    one piece, or one statement of a thread. *)
Inductive event : Type :=
| CallConnect (camera_id : Z) (env : capture)
| CallConnectIp (url : json) (env : capture)
| CallDisconnect
| CallGetFrame
| LoopStep (i : nat) (rd : option image)
| ReaderStep (j : nat).

Definition step (w : world) (e : event) : option world :=
  match e with
  | CallConnect id env => Some (connect id env w).1
  | CallConnectIp url env => Some (connect_ip url env w).1
  | CallDisconnect => Some (disconnect w)
  | CallGetFrame =>
      Some {| mgr := mgr w; loops := loops w;
              readers := (readers w ++ [ReadAcquire])%list;
              released := released w; next_handle := next_handle w |}
  | LoopStep i rd => capture_loop_step i rd w
  | ReaderStep j => get_frame_step j w
  end.

Fixpoint run (events : list event) (w : world) : option world :=
  match events with
  | [] => Some w
  | e :: rest => w' ← step w e; run rest w'
  end.

Definition reachable (w : world) : Prop :=
  exists events, run events initial = Some w.

(** A capture thread that has not ended. *)
Definition loop_alive (p : loop_pc) : bool :=
  match p with LoopExited | LoopCrashed => false | _ => true end.

Definition alive_loops (w : world) : nat :=
  length (filter (fun p => loop_alive p = true) (loops w)).

(** Inside [with self.lock]. *)
Definition loop_holds (p : loop_pc) : bool :=
  match p with LoopStore _ | LoopRelease => true | _ => false end.

Definition reader_holds (p : reader_pc) : bool :=
  match p with
  | ReadTest | ReadEncode | ReadRelease _ | ReadRaise => true
  | _ => false
  end.

Definition inside (w : world) (t : thread) : Prop :=
  match t with
  | CaptureThread i => exists p, loops w !! i = Some p /\ loop_holds p = true
  | FrameRequest j => exists p, readers w !! j = Some p /\ reader_holds p = true
  end.

(** *** Facts about the methods *)

Lemma disconnect_fields w :
  mgr (disconnect w)
    = {| camera := None; camera_id := None; is_streaming := false;
         frame := None; lock := lock (mgr w) |}
  /\ loops (disconnect w) = loops w
  /\ readers (disconnect w) = readers w
  /\ next_handle (disconnect w) = next_handle w
  /\ released (disconnect w)
      = match camera (mgr w) with
        | Some h => (released w ++ [h])%list
        | None => released w
        end.
Proof.
  destruct w as [[c id s f l] lp rd rel nh]. unfold disconnect. simpl.
  destruct c; repeat split.
Qed.

Lemma disconnect_idempotent w : disconnect (disconnect w) = disconnect w.
Proof.
  destruct w as [[c id s f l] lp rd rel nh]. unfold disconnect. simpl.
  destruct c; reflexivity.
Qed.

(** A frame request that runs alone, with the lock free, ends with the
    result of [get_frame_base64] run in one piece. *)
Lemma reader_alone w :
  lock (mgr w) = None ->
  let j := length (readers w) in
  exists n w',
    (n <= 4)%nat
    /\ run (CallGetFrame :: repeat (ReaderStep j) n) w = Some w'
    /\ readers w' !! j = Some (ReadReturned (get_frame_base64 w))
    /\ frame (mgr w') = frame (mgr w)
    /\ lock (mgr w') = None.
Proof.
  destruct w as [[c id s f l] lp rd rel nh]. simpl. intros ->.
  unfold get_frame_base64. simpl.
  assert (Hin : forall p q, (<[length rd := q]> (rd ++ [p]) : list reader_pc)
                            = (rd ++ [q])%list).
  { intros p q. rewrite insert_app_r_alt by lia.
    now rewrite Nat.sub_diag. }
  assert (Hat : forall p, ((rd ++ [p])%list : list reader_pc) !! length rd = Some p).
  { intros p. rewrite lookup_app_r by lia. now rewrite Nat.sub_diag. }
  destruct f as [f|].
  - destruct (imencode f) as [jpeg|] eqn:E;
      exists 4%nat; eexists; (split; [lia|]); split.
    1, 3: simpl; unfold get_frame_step, set_reader, set_lock, with_mgr; simpl;
      rewrite Hat; simpl; rewrite Hin, Hat; simpl; rewrite Hin, Hat; simpl;
      rewrite E, Hin, Hat; simpl; rewrite Hin; reflexivity.
    all: simpl; rewrite Hat; auto.
  - exists 3%nat. eexists. split; [lia|]. split.
    + simpl. unfold get_frame_step, set_reader, set_lock, with_mgr. simpl.
      rewrite Hat. simpl. rewrite Hin, Hat. simpl. rewrite Hin, Hat. simpl.
      rewrite Hin. reflexivity.
    + simpl. rewrite Hat. auto.
Qed.

(** *** The lock *)

(** Whoever is inside a [with self.lock] block is the holder of the
    lock. *)
Definition lock_inv (w : world) : Prop :=
  forall t, inside w t -> lock (mgr w) = Some t.

Lemma inside_same_threads w w' t :
  loops w' = loops w -> readers w' = readers w -> inside w' t -> inside w t.
Proof. destruct t; simpl; intros Hl Hr; rewrite ?Hl, ?Hr; auto. Qed.

Lemma lookup_snoc_Some {A} (l : list A) (x y : A) (k : nat) :
  (l ++ [x]) !! k = Some y -> l !! k = Some y \/ y = x.
Proof.
  intros H. apply lookup_app_Some in H as [H | [_ H]]; [now left|].
  right. destruct (k - length l)%nat; simpl in H; [congruence|discriminate].
Qed.

Lemma inside_new_loop w w' t :
  loops w' = loops w ++ [LoopTest] -> readers w' = readers w ->
  inside w' t -> inside w t.
Proof.
  destruct t as [i|j]; simpl; intros Hl Hr; rewrite ?Hl, ?Hr; auto.
  intros (p & Hp & Hh). apply lookup_snoc_Some in Hp as [Hp | ->]; eauto.
  discriminate.
Qed.

Lemma inside_new_reader w w' t :
  loops w' = loops w -> readers w' = readers w ++ [ReadAcquire] ->
  inside w' t -> inside w t.
Proof.
  destruct t as [i|j]; simpl; intros Hl Hr; rewrite ?Hl, ?Hr; auto.
  intros (p & Hp & Hh). apply lookup_snoc_Some in Hp as [Hp | ->]; eauto.
  discriminate.
Qed.

Lemma inside_set_loop i p w t :
  inside (set_loop i p w) t ->
  (t = CaptureThread i /\ loop_holds p = true)
  \/ (t <> CaptureThread i /\ inside w t).
Proof.
  destruct t as [k|j]; simpl.
  - intros (q & Hq & Hh). destruct (decide (k = i)) as [->|Hne].
    + left. apply list_lookup_insert_Some in Hq as [(_ & -> & _) | (? & _)];
        [auto|congruence].
    + right. rewrite list_lookup_insert_ne in Hq by congruence.
      split; [congruence|eauto].
  - intros H. right. split; [discriminate|exact H].
Qed.

Lemma inside_set_reader j p w t :
  inside (set_reader j p w) t ->
  (t = FrameRequest j /\ reader_holds p = true)
  \/ (t <> FrameRequest j /\ inside w t).
Proof.
  destruct t as [i|k]; simpl.
  - intros H. right. split; [discriminate|exact H].
  - intros (q & Hq & Hh). destruct (decide (k = j)) as [->|Hne].
    + left. apply list_lookup_insert_Some in Hq as [(_ & -> & _) | (? & _)];
        [auto|congruence].
    + right. rewrite list_lookup_insert_ne in Hq by congruence.
      split; [congruence|eauto].
Qed.

Lemma connect_threads id env w :
  lock (mgr (connect id env w).1) = lock (mgr w)
  /\ readers (connect id env w).1 = readers w
  /\ (loops (connect id env w).1 = loops w
      \/ loops (connect id env w).1 = loops w ++ [LoopTest]).
Proof.
  destruct w as [[c cid s f l] lp rd rel nh]. unfold connect. simpl.
  destruct c, env as [exn|[] []]; simpl; auto.
Qed.

Lemma connect_ip_threads url env w :
  lock (mgr (connect_ip url env w).1) = lock (mgr w)
  /\ readers (connect_ip url env w).1 = readers w
  /\ (loops (connect_ip url env w).1 = loops w
      \/ loops (connect_ip url env w).1 = loops w ++ [LoopTest]).
Proof.
  destruct w as [[c cid s f l] lp rd rel nh]. unfold connect_ip. simpl.
  destruct c, env as [exn|[] []]; simpl; auto.
Qed.

Lemma capture_loop_step_lock_inv i rd w w' :
  lock_inv w -> capture_loop_step i rd w = Some w' -> lock_inv w'.
Proof.
  intros Hinv Hstep. unfold capture_loop_step in Hstep.
  destruct (loops w !! i) as [p|] eqn:Hp; simpl in Hstep; [|discriminate].
  assert (Hme : loop_holds p = true -> lock (mgr w) = Some (CaptureThread i)).
  { intros Hh. apply Hinv. simpl. eauto. }
  destruct p; simpl in Hme;
    repeat match type of Hstep with
      | match ?x with Some _ => _ | None => _ end = _ =>
          let E := fresh "E" in destruct x eqn:E
      end;
    try discriminate; injection Hstep as <-;
    intros t Ht; apply inside_set_loop in Ht as [[-> Hh] | [Hne Ht]];
    simpl in *; try discriminate; auto;
    try (destruct (is_streaming (mgr w) && _); discriminate);
    try (destruct rd; discriminate);
    try (specialize (Hinv t Ht); congruence);
    specialize (Hinv t Ht); specialize (Hme eq_refl); congruence.
Qed.

Lemma get_frame_step_lock_inv j w w' :
  lock_inv w -> get_frame_step j w = Some w' -> lock_inv w'.
Proof.
  intros Hinv Hstep. unfold get_frame_step in Hstep.
  destruct (readers w !! j) as [p|] eqn:Hp; simpl in Hstep; [|discriminate].
  assert (Hme : reader_holds p = true -> lock (mgr w) = Some (FrameRequest j)).
  { intros Hh. apply Hinv. simpl. eauto. }
  destruct p; simpl in Hme;
    try match type of Hstep with
      | match lock (mgr w) with Some _ => _ | None => _ end = _ =>
          let E := fresh "E" in destruct (lock (mgr w)) eqn:E
      end;
    try discriminate; injection Hstep as <-;
    intros t Ht; apply inside_set_reader in Ht as [[-> Hh] | [Hne Ht]];
    simpl in *; try discriminate; auto;
    try (specialize (Hinv t Ht); congruence);
    specialize (Hinv t Ht); specialize (Hme eq_refl); congruence.
Qed.

Lemma step_lock_inv w e w' : lock_inv w -> step w e = Some w' -> lock_inv w'.
Proof.
  intros Hinv Hstep. destruct e as [id env|url env| | |i rd|j]; simpl in Hstep.
  - injection Hstep as <-. intros t Ht.
    destruct (connect_threads id env w) as (Hl & Hr & [Hs | Hs]); rewrite Hl;
      apply Hinv; eauto using inside_same_threads, inside_new_loop.
  - injection Hstep as <-. intros t Ht.
    destruct (connect_ip_threads url env w) as (Hl & Hr & [Hs | Hs]); rewrite Hl;
      apply Hinv; eauto using inside_same_threads, inside_new_loop.
  - injection Hstep as <-. intros t Ht.
    destruct (disconnect_fields w) as (Hm & Hs & Hr & _). rewrite Hm. simpl.
    apply Hinv. eauto using inside_same_threads.
  - injection Hstep as <-. intros t Ht. simpl.
    apply Hinv. eapply inside_new_reader; [| |exact Ht]; reflexivity.
  - eauto using capture_loop_step_lock_inv.
  - eauto using get_frame_step_lock_inv.
Qed.

Lemma run_lock_inv events : forall w w',
  lock_inv w -> run events w = Some w' -> lock_inv w'.
Proof.
  induction events as [|e rest IH]; intros w w' Hinv Hrun; simpl in Hrun.
  - now injection Hrun as <-.
  - destruct (step w e) as [w1|] eqn:Hstep; simpl in Hrun; [|discriminate].
    eauto using step_lock_inv.
Qed.

Lemma initial_lock_inv : lock_inv initial.
Proof. intros [i|j] (p & Hp & _); destruct i || destruct j; discriminate. Qed.

Lemma reachable_lock_inv w : reachable w -> lock_inv w.
Proof. intros [events Hrun]. eauto using run_lock_inv, initial_lock_inv. Qed.

(** *** Capture threads that never end *)

Lemma alive_insert (l : list loop_pc) i p q :
  l !! i = Some p -> loop_alive q = loop_alive p ->
  length (filter (fun x => loop_alive x = true) (<[i := q]> l))
  = length (filter (fun x => loop_alive x = true) l).
Proof.
  revert i. induction l as [|x l IH]; intros [|i] Hp Hq; simpl in Hp;
    try discriminate.
  - injection Hp as ->. simpl. rewrite !filter_cons, Hq.
    destruct (decide (loop_alive p = true)); reflexivity.
  - simpl. rewrite !filter_cons.
    destruct (decide (loop_alive x = true)); simpl; rewrite (IH i Hp Hq);
      reflexivity.
Qed.

(** A capture thread writes neither [is_streaming] nor [camera]; while
    both stand, none of the capture threads ends. *)
Lemma capture_loop_step_streaming i rd w w' :
  capture_loop_step i rd w = Some w' ->
  is_streaming (mgr w') = is_streaming (mgr w)
  /\ camera (mgr w') = camera (mgr w)
  /\ (is_streaming (mgr w) = true -> camera (mgr w) <> None ->
      alive_loops w' = alive_loops w).
Proof.
  unfold capture_loop_step, alive_loops. intros Hstep.
  destruct (loops w !! i) as [p|] eqn:Hp; simpl in Hstep; [|discriminate].
  destruct p;
    repeat match type of Hstep with
      | match ?x with Some _ => _ | None => _ end = _ =>
          let E := fresh "E" in destruct x eqn:E
      end;
    try discriminate; injection Hstep as <-; simpl;
    (split; [congruence|]); (split; [congruence|]); intros Hs Hc;
    try (apply (alive_insert _ _ _ _ Hp); reflexivity);
    try congruence.
  - apply (alive_insert _ _ _ _ Hp). rewrite Hs. simpl.
    rewrite bool_decide_true by assumption. reflexivity.
  - apply (alive_insert _ _ _ _ Hp). destruct rd; reflexivity.
Qed.

Lemma run_loops_streaming (steps : list (nat * option image)) : forall w w',
  is_streaming (mgr w) = true -> camera (mgr w) <> None ->
  run (map (fun s => LoopStep s.1 s.2) steps) w = Some w' ->
  alive_loops w' = alive_loops w.
Proof.
  induction steps as [|[i rd] rest IH]; intros w w' Hs Hc Hrun; simpl in Hrun.
  - now injection Hrun as <-.
  - destruct (capture_loop_step i rd w) as [w1|] eqn:Hstep; simpl in Hrun; [|discriminate].
    destruct (capture_loop_step_streaming i rd w w1 Hstep) as (Hs1 & Hc1 & Ha).
    rewrite <- (Ha Hs Hc). apply IH; congruence.
Qed.

Lemma run_app events events' w :
  run (events ++ events') w = w1 ← run events w; run events' w1.
Proof.
  revert w. induction events as [|e rest IH]; intros w; simpl.
  - reflexivity.
  - destruct (step w e); simpl; auto.
Qed.

(** *** The claims on the camera session *)

(** C1, on the code: two calls of [connect] that both succeed leave two
    capture threads running.  The second call releases the first capture
    object and puts a new one in [self.camera], but the flag stays up, so
    the first thread goes on, reading from the new object; no sequence
    of statements of the two threads ends either of them, and both store
    frames. *)
Theorem second_connect_keeps_first_loop (id1 id2 : Z)
    (steps : list (nat * option image)) :
  let connects := [CallConnect id1 (Captured true true);
                   CallConnect id2 (Captured true true)] in
  (exists w, run connects initial = Some w
             /\ loops w = [LoopTest; LoopTest] /\ alive_loops w = 2%nat
             /\ released w = [0%nat] /\ camera (mgr w) = Some 1%nat
             /\ is_streaming (mgr w) = true)
  /\ (forall w', run (connects ++ map (fun s => LoopStep s.1 s.2) steps) initial
                   = Some w' -> alive_loops w' = 2%nat)
  /\ (exists w', run (connects ++
                       [LoopStep 0 None; LoopStep 1 None;
                        LoopStep 0 (Some [1]); LoopStep 1 (Some [2]);
                        LoopStep 0 None; LoopStep 0 None; LoopStep 0 None;
                        LoopStep 1 None; LoopStep 1 None]) initial = Some w'
              /\ loops w' = [LoopSleep; LoopRelease]
              /\ frame (mgr w') = Some [2]).
Proof.
  intros connects.
  pose (w2 := {| mgr := {| camera := Some 1%nat; camera_id := Some (JInt id2);
                           is_streaming := true; frame := None; lock := None |};
                 loops := [LoopTest; LoopTest]; readers := [];
                 released := [0%nat]; next_handle := 2%nat |}).
  assert (Hconnects : run connects initial = Some w2) by reflexivity.
  repeat apply conj.
  - exists w2. repeat apply conj; reflexivity.
  - intros w' Hrun. rewrite run_app, Hconnects in Hrun.
    apply run_loops_streaming in Hrun; [rewrite Hrun; reflexivity|reflexivity|].
    discriminate.
  - rewrite run_app, Hconnects.
    exists {| mgr := {| camera := Some 1%nat; camera_id := Some (JInt id2);
                        is_streaming := true; frame := Some [2];
                        lock := Some (CaptureThread 1) |};
              loops := [LoopSleep; LoopRelease]; readers := [];
              released := [0%nat]; next_handle := 2%nat |}.
    repeat apply conj; reflexivity.
Qed.

(** What [disconnect] does by itself, with every thread standing still:
    it leaves the flag down, no capture object, no source identity and no
    frame, whatever the state before; [status] then reports a session that
    is not connected and [get_frame_base64] has nothing to return, also when
    it is run as a request of its own, one statement at a time; a second
    [disconnect] changes nothing, and with no capture object there is
    nothing it calls [release()] on. *)
Theorem disconnect_clears_session (w : world) :
  let w' := disconnect w in
  is_streaming (mgr w') = false
  /\ camera (mgr w') = None
  /\ camera_id (mgr w') = None
  /\ frame (mgr w') = None
  /\ camera_status w' = (false, None)
  /\ get_frame_base64 w' = None
  /\ (lock (mgr w) = None ->
      exists n w'', run (CallGetFrame :: repeat (ReaderStep (length (readers w))) n) w'
                      = Some w''
                    /\ readers w'' !! length (readers w) = Some (ReadReturned None))
  /\ disconnect w' = w'
  /\ released (disconnect w') = released w'
  /\ (camera (mgr w) = None -> released w' = released w)
  /\ (forall h, camera (mgr w) = Some h -> released w' = released w ++ [h]).
Proof.
  intros w'. subst w'.
  destruct (disconnect_fields w) as (Hm & Hl & Hr & Hn & Hrel).
  assert (Hget : get_frame_base64 (disconnect w) = None).
  { unfold get_frame_base64. now rewrite Hm. }
  split; [now rewrite Hm|]. split; [now rewrite Hm|].
  split; [now rewrite Hm|]. split; [now rewrite Hm|].
  split; [unfold camera_status; now rewrite Hm|].
  split; [exact Hget|].
  split.
  { intros Hlock.
    destruct (reader_alone (disconnect w)) as (n & w'' & _ & Hrun & Hret & _).
    { rewrite Hm. exact Hlock. }
    rewrite Hr in Hrun, Hret. exists n, w''. split; [exact Hrun|].
    now rewrite Hret, Hget. }
  split; [apply disconnect_idempotent|].
  split; [now rewrite disconnect_idempotent|].
  split; [intros Hc; now rewrite Hrel, Hc|].
  intros h Hc. now rewrite Hrel, Hc.
Qed.

(** C9: when the source does not open, or opens and fails the test read,
    [connect] and [connect_ip] answer with a failure and leave the capture
    object they have just created in [self.camera]: [status] reports
    [connected] true.  The object that was there before, if any, has been
    released; no thread is started and [camera_id] and the flag keep
    their values. *)
Theorem failed_connect_keeps_new_capture (w : world) (id : Z) (url : json)
    (opened ret : bool) :
  opened && ret = false ->
  let r := connect id (Captured opened ret) w in
  let r' := connect_ip url (Captured opened ret) w in
  r.2 = (false, if opened then "Cannot read from camera" else "Cannot open camera")
  /\ r'.2 = (false, if opened then "Cannot read from IP camera"
                    else "Cannot connect to IP camera")
  /\ r'.1 = r.1
  /\ camera (mgr r.1) = Some (next_handle w)
  /\ (camera_status r.1).1 = true
  /\ (forall old, camera (mgr w) = Some old -> old ∈ released r.1)
  /\ loops r.1 = loops w
  /\ camera_id (mgr r.1) = camera_id (mgr w)
  /\ is_streaming (mgr r.1) = is_streaming (mgr w).
Proof.
  intros Hfail.
  destruct w as [[c cid s f l] lp rd rel nh]. unfold connect, connect_ip. simpl.
  destruct opened, ret; try discriminate; destruct c; simpl;
    repeat apply conj; try reflexivity; try discriminate;
    intros old [= ->]; apply elem_of_app; right; apply list_elem_of_singleton;
    reflexivity.
Qed.

(** C10: the store of the capture thread and the reads of
    [get_frame_base64] are made inside [with self.lock] blocks on the one
    lock of the manager.  In every state the program can reach, a thread
    that is inside such a block holds the lock, so no two threads are
    inside at once; a capture thread changes [frame] only from inside; a
    frame request outside its block does not depend on [frame]; hence
    while a frame request is inside, no capture thread changes [frame]. *)
Theorem frame_buffer_lock_excludes (w : world) :
  reachable w ->
  (forall t, inside w t -> lock (mgr w) = Some t)
  /\ (forall t t', inside w t -> inside w t' -> t = t')
  /\ (forall i rd w', capture_loop_step i rd w = Some w' ->
        frame (mgr w') <> frame (mgr w) -> inside w (CaptureThread i))
  /\ (forall j f, ~ inside w (FrameRequest j) ->
        get_frame_step j (set_frame f w) = set_frame f <$> get_frame_step j w)
  /\ (forall j i rd w', inside w (FrameRequest j) ->
        capture_loop_step i rd w = Some w' -> frame (mgr w') = frame (mgr w)).
Proof.
  intros Hreach. pose proof (reachable_lock_inv w Hreach) as Hinv.
  assert (Hexcl : forall t t', inside w t -> inside w t' -> t = t').
  { intros t t' Ht Ht'. apply Hinv in Ht, Ht'. congruence. }
  assert (Hstore : forall i rd w', capture_loop_step i rd w = Some w' ->
            frame (mgr w') <> frame (mgr w) -> inside w (CaptureThread i)).
  { intros i rd w' Hstep Hneq. unfold capture_loop_step in Hstep. simpl.
    destruct (loops w !! i) as [p|] eqn:Hp; simpl in Hstep; [|discriminate].
    exists p. split; [reflexivity|].
    destruct p; try reflexivity;
      repeat match type of Hstep with
        | match ?x with Some _ => _ | None => _ end = _ => destruct x
        end;
      try discriminate; injection Hstep as <-; now contradict Hneq. }
  repeat apply conj; auto.
  - intros j f Hout. unfold get_frame_step. simpl.
    destruct (readers w !! j) as [p|] eqn:Hp; simpl; [|reflexivity].
    destruct p; simpl; try reflexivity.
    + destruct (lock (mgr w)); reflexivity.
    + contradict Hout. simpl. eauto.
    + contradict Hout. simpl. eauto.
  - intros j i rd w' Hin Hstep.
    destruct (decide (frame (mgr w') = frame (mgr w))) as [|Hneq]; [assumption|].
    pose proof (Hexcl _ _ Hin (Hstore i rd w' Hstep Hneq)). discriminate.
Qed.

End Encoding.

(** *** The theorems at work on concrete runs *)

(** A stand-in for the JPEG encoder and for base64: the number of pixels. *)
Definition toy_imencode (f : image) : option (list Byte.byte) :=
  Some (repeat Byte.x00 (length f)).
Definition toy_b64encode (jpeg : list Byte.byte) : string :=
  PyNum.str_of_int (Z.of_nat (length jpeg)).

(** A session whose capture thread is about to store a frame while a frame
    request waits for the lock. *)
Definition storing : world :=
  {| mgr := {| camera := Some 0%nat; camera_id := Some (JInt 0);
               is_streaming := true; frame := None;
               lock := Some (CaptureThread 0) |};
     loops := [LoopStore [7; 7]]; readers := [ReadAcquire];
     released := []; next_handle := 1%nat |}.

Lemma storing_reachable : reachable toy_imencode toy_b64encode storing.
Proof.
  exists [CallConnect 0 (Captured true true); LoopStep 0 None;
          LoopStep 0 (Some [7; 7]); CallGetFrame; LoopStep 0 None].
  reflexivity.
Defined.

Lemma frame_buffer_lock_excludes_witness :
  reachable toy_imencode toy_b64encode storing
  /\ (forall t t', inside storing t -> inside storing t' -> t = t').
Proof.
  split; [exact storing_reachable|].
  exact (proj1 (proj2 (frame_buffer_lock_excludes toy_imencode toy_b64encode
                         storing storing_reachable))).
Defined.

Lemma failed_connect_keeps_new_capture_witness :
  true && false = false
  /\ (camera_status (connect 0 (Captured true false) storing).1).1 = true.
Proof.
  split; [reflexivity|].
  exact (proj1 (proj2 (proj2 (proj2 (proj2
           (failed_connect_keeps_new_capture storing 0 (JString "rtsp://cam") true false
              eq_refl)))))).
Defined.

(** A capture thread that has read a frame, and a [disconnect] that comes
    before the thread stores it. *)
Definition read_then_disconnect : list event :=
  [CallConnect 0 (Captured true true); LoopStep 0 None;
   LoopStep 0 (Some [7; 7]); CallDisconnect].

(** The thread takes the lock, stores the frame and gives the lock back. *)
Definition late_store : list event :=
  [LoopStep 0 None; LoopStep 0 None; LoopStep 0 None].

(** The next call of [get_frame_base64], statement by statement. *)
Definition next_request : list event :=
  [CallGetFrame; ReaderStep 0; ReaderStep 0; ReaderStep 0; ReaderStep 0].

(** C2, on the code: after [disconnect] the next [get_frame_base64] can
    return a frame.  [disconnect] clears [frame] without waiting for the
    capture thread; a thread that had read a frame when [disconnect] ran
    stores it afterwards, finds the flag down and ends, and the frame stays:
    the session is disconnected, no thread is left, and the request that
    follows [disconnect] returns the encoding of that frame. *)
Theorem frame_served_after_disconnect :
  (exists w, run toy_imencode toy_b64encode read_then_disconnect initial = Some w
             /\ loops w = [LoopAcquire [7; 7]]
             /\ is_streaming (mgr w) = false /\ camera (mgr w) = None
             /\ camera_id (mgr w) = None /\ frame (mgr w) = None)
  /\ (exists w, run toy_imencode toy_b64encode
                  (read_then_disconnect ++ late_store) initial = Some w
                /\ is_streaming (mgr w) = false /\ camera (mgr w) = None
                /\ lock (mgr w) = None
                /\ frame (mgr w) = Some [7; 7]
                /\ get_frame_base64 toy_imencode toy_b64encode w = Some "2")
  /\ (exists w, run toy_imencode toy_b64encode
                  (read_then_disconnect ++ late_store ++ next_request) initial
                = Some w
                /\ readers w = [ReadReturned (Some "2")])
  /\ (exists w, run toy_imencode toy_b64encode
                  (read_then_disconnect ++ late_store
                   ++ [LoopStep 0 None; LoopStep 0 None] ++ next_request) initial
                = Some w
                /\ loops w = [LoopExited]
                /\ readers w = [ReadReturned (Some "2")]
                /\ frame (mgr w) = Some [7; 7]).
Proof.
  repeat apply conj.
  - exists {| mgr := {| camera := None; camera_id := None; is_streaming := false;
                        frame := None; lock := None |};
              loops := [LoopAcquire [7; 7]]; readers := []; released := [0%nat];
              next_handle := 1%nat |}.
    repeat apply conj; reflexivity.
  - exists {| mgr := {| camera := None; camera_id := None; is_streaming := false;
                        frame := Some [7; 7]; lock := None |};
              loops := [LoopSleep]; readers := []; released := [0%nat];
              next_handle := 1%nat |}.
    repeat apply conj; reflexivity.
  - exists {| mgr := {| camera := None; camera_id := None; is_streaming := false;
                        frame := Some [7; 7]; lock := None |};
              loops := [LoopSleep]; readers := [ReadReturned (Some "2")];
              released := [0%nat]; next_handle := 1%nat |}.
    repeat apply conj; reflexivity.
  - exists {| mgr := {| camera := None; camera_id := None; is_streaming := false;
                        frame := Some [7; 7]; lock := None |};
              loops := [LoopExited]; readers := [ReadReturned (Some "2")];
              released := [0%nat]; next_handle := 1%nat |}.
    repeat apply conj; reflexivity.
Qed.

End Camera.

(** ** More on zone persistence *)

Module ZoneFacts.
Import Json Zones.

(** A file the program can load into a dictionary: none, an unreadable one,
    or one that holds a JSON object. *)
Definition object_file (f : file) : Prop :=
  f = Absent \/ f = Unreadable \/ exists cfg, f = Holds (JObject cfg).

(** An event under which the file stays such a file. *)
Definition keeps_object (e : event) : Prop :=
  match e with
  | FileBecomes f => object_file f
  | Save _ | Load | WritableBecomes _ => True
  end.

(** An event of the program itself. *)
Definition internal (e : event) : Prop :=
  match e with
  | FileBecomes _ | WritableBecomes _ => False
  | Save _ | Load => True
  end.

Definition is_object (doc : json) : Prop := exists cfg, doc = JObject cfg.

(** The file, if the program has written it, holds [zone_config]. *)
Definition in_sync (s : store) : Prop :=
  zones_file s = Absent \/ zones_file s = Holds (zone_config s).

(** The same, with what it takes to stay so: a file that is there can be
    written again. *)
Definition kept_in_sync (s : store) : Prop :=
  zones_file s = Absent
  \/ (writable s = true /\ zones_file s = Holds (zone_config s)).

Ltac forall_list :=
  repeat match goal with
    | |- Forall _ (_ :: _) => constructor
    | |- Forall _ [] => constructor
    end.

Lemma save_zones_object data s :
  is_object (zone_config s) ->
  is_object (zone_config (save_zones data s).1)
  /\ (object_file (zones_file s) -> object_file (zones_file (save_zones data s).1))
  /\ (kept_in_sync s -> kept_in_sync (save_zones data s).1).
Proof.
  intros [cfg Hcfg]. destruct s as [doc f w]. simpl in Hcfg. subst doc.
  destruct data; try (simpl; unfold is_object; eauto; fail).
  rewrite save_zones_objects. cbv zeta. cbn [fst zone_config zones_file].
  split; [unfold is_object; eauto|]. split.
  - intros Hf. destruct w; [|exact Hf]. unfold object_file. eauto.
  - unfold kept_in_sync. cbn [zone_config zones_file writable].
    intros [Hf | [Hw Hf]].
    + destruct w; auto.
    + subst w. auto.
Qed.

Lemma load_zones_object s :
  is_object (zone_config s) -> object_file (zones_file s) ->
  is_object (zone_config (load_zones s).1)
  /\ object_file (zones_file (load_zones s).1).
Proof.
  intros Hc Hf. unfold load_zones.
  destruct Hf as [Hf | [Hf | [cfg Hf]]]; rewrite Hf; simpl;
    unfold is_object, object_file; rewrite ?Hf; eauto 6.
Qed.

Lemma load_zones_in_sync s :
  in_sync s -> load_zones s = (s, Body (zone_config s)).
Proof.
  destruct s as [doc f w]. unfold in_sync, load_zones. simpl.
  intros [-> | ->]; reflexivity.
Qed.

Lemma kept_in_sync_in_sync s : kept_in_sync s -> in_sync s.
Proof. unfold kept_in_sync, in_sync. intros [H | [_ H]]; auto. Qed.

Lemma run_snoc events e s : run (events ++ [e]) s = step (run events s) e.
Proof. unfold run. now rewrite fold_left_app. Qed.

Lemma run_keeps_object events : forall s,
  is_object (zone_config s) -> object_file (zones_file s) ->
  Forall keeps_object events ->
  is_object (zone_config (run events s)) /\ object_file (zones_file (run events s)).
Proof.
  induction events as [|e events IH]; intros s Hc Hf Hall; [now split|].
  inversion Hall as [|? ? He Hrest]; subst. apply IH; [| |exact Hrest].
  - destruct e as [data| |f|w]; simpl.
    + now apply save_zones_object.
    + now apply load_zones_object.
    + exact Hc.
    + exact Hc.
  - destruct e as [data| |f|w]; simpl.
    + now apply save_zones_object.
    + now apply load_zones_object.
    + exact He.
    + exact Hf.
Qed.

Lemma run_in_sync events : forall s,
  is_object (zone_config s) -> kept_in_sync s -> Forall internal events ->
  is_object (zone_config (run events s)) /\ kept_in_sync (run events s).
Proof.
  induction events as [|e events IH]; intros s Hc Hs Hall; [now split|].
  inversion Hall as [|? ? He Hrest]; subst.
  destruct e as [data| |f|w]; simpl in He; try contradiction; simpl.
  - apply IH; [| |exact Hrest]; now apply save_zones_object.
  - rewrite (load_zones_in_sync s (kept_in_sync_in_sync s Hs)). simpl. now apply IH.
Qed.

(** [save_zones] keeps every entry of the document other than ['zones']:
    what [zone_config] held under another key (['image'], or a key that came
    with a loaded file) is still there, in memory and, when the file could be
    written, in the file. *)
Theorem save_zones_keeps_other_entries (fields cfg : list (string * json))
    (prior : file) (w : bool) (key : string) :
  key <> "zones" ->
  exists cfg',
    (save_zones (JObject fields)
       {| zone_config := JObject cfg; zones_file := prior; writable := w |}).1
      = {| zone_config := JObject cfg';
           zones_file := if w then Holds (JObject cfg') else prior;
           writable := w |}
    /\ dict_get key cfg' = dict_get key cfg.
Proof.
  intros Hkey. eexists. split; [now rewrite save_zones_objects|].
  apply dict_get_set_ne. congruence.
Qed.

(** A save request that carries no ['zones'] key stores the empty list:
    the zones saved before are gone. *)
Theorem save_zones_without_zones_key (fields cfg : list (string * json))
    (prior : file) (w : bool) :
  dict_get "zones" fields = None ->
  exists cfg',
    save_zones (JObject fields)
      {| zone_config := JObject cfg; zones_file := prior; writable := w |}
      = ({| zone_config := JObject cfg';
            zones_file := if w then Holds (JObject cfg') else prior;
            writable := w |},
         if w then Body zones_saved else Raised "OSError")
    /\ dict_get "zones" cfg' = Some (JList []).
Proof.
  intros Hnone. eexists. split.
  - rewrite save_zones_objects, (requested_zones_missing fields Hnone). reflexivity.
  - apply dict_get_set_eq.
Qed.

(** As long as the file, whenever something outside the program replaces it,
    is absent, unreadable or holds a JSON object, [zone_config] remains a
    dictionary: the item assignment of a save never raises, so that a save
    whose body is an object raises only when the file cannot be opened for
    writing; and what a load answers is an object. *)
Theorem zone_config_stays_object (events : list event) (f : file) (w : bool)
    (fields : list (string * json)) :
  object_file f -> Forall keeps_object events ->
  let s := run events (initial f w) in
  is_object (zone_config s)
  /\ (save_zones (JObject fields) s).2
     = (if writable s then Body zones_saved else Raised "OSError")
  /\ (exists cfg', zone_config (save_zones (JObject fields) s).1 = JObject cfg'
                   /\ dict_get "zones" cfg' = Some (requested_zones fields))
  /\ exists cfg, (load_zones s).2 = Body (JObject cfg).
Proof.
  intros Hf Hall s.
  destruct (run_keeps_object events (initial f w)) as [Hc Hf']; auto.
  { now exists [("zones", JList []); ("image", JNull)]. }
  fold s in Hc, Hf'. split; [exact Hc|].
  assert (Hsave : save_zones (JObject fields) s
                  = let doc := JObject (dict_set "zones" (requested_zones fields)
                                          (match zone_config s with
                                           | JObject cfg => cfg
                                           | _ => []
                                           end)) in
                    ({| zone_config := doc;
                        zones_file := if writable s then Holds doc else zones_file s;
                        writable := writable s |},
                     if writable s then Body zones_saved else Raised "OSError")).
  { destruct Hc as [cfg Hc]. destruct s as [doc f' w']. simpl in Hc. subst doc.
    apply save_zones_objects. }
  rewrite Hsave. cbv zeta. cbn [fst snd zone_config]. split; [reflexivity|]. split.
  - eexists. split; [reflexivity|]. apply dict_get_set_eq.
  - destruct (load_zones_object s Hc Hf') as [[cfg Hl] _]. exists cfg.
    unfold load_zones in *. destruct (zones_file s); simpl in *; now rewrite Hl.
Qed.

(** When nothing but the program touches the file, starting with no file,
    the file is either still absent or holds exactly [zone_config]: a load
    changes nothing and answers with the document in memory, and loading
    twice is loading once.  This holds whether or not the file can be
    written. *)
Theorem load_zones_after_own_saves (events : list event) (w : bool) :
  Forall internal events ->
  let s := run events (initial Absent w) in
  in_sync s
  /\ load_zones s = (s, Body (zone_config s))
  /\ load_zones (load_zones s).1 = load_zones s.
Proof.
  intros Hall s.
  destruct (run_in_sync events (initial Absent w)) as [_ Hs]; auto.
  { now exists [("zones", JList []); ("image", JNull)]. }
  { now left. }
  fold s in Hs. apply kept_in_sync_in_sync in Hs.
  pose proof (load_zones_in_sync s Hs) as Hl.
  split; [exact Hs|]. split; [exact Hl|]. now rewrite Hl.
Qed.

(** *** The theorems at work *)

Lemma save_zones_keeps_other_entries_witness :
  "image" <> "zones"
  /\ exists cfg',
       (save_zones example_body (initial Absent true)).1
         = {| zone_config := JObject cfg'; zones_file := Holds (JObject cfg');
              writable := true |}
       /\ dict_get "image" cfg' = Some JNull.
Proof.
  assert (Hne : "image" <> "zones") by discriminate.
  split; [exact Hne|].
  exact (save_zones_keeps_other_entries [("zones", JList [triangle])]
           [("zones", JList []); ("image", JNull)] Absent true "image" Hne).
Defined.

Lemma save_zones_without_zones_key_witness :
  dict_get "zones" [("image", JNull)] = None
  /\ exists cfg',
       save_zones (JObject [("image", JNull)])
         {| zone_config := JObject [("zones", JList [triangle])];
            zones_file := Absent; writable := true |}
         = ({| zone_config := JObject cfg'; zones_file := Holds (JObject cfg');
               writable := true |},
            Body zones_saved)
       /\ dict_get "zones" cfg' = Some (JList []).
Proof.
  split; [reflexivity|].
  exact (save_zones_without_zones_key [("image", JNull)]
           [("zones", JList [triangle])] Absent true eq_refl).
Defined.

(** A run in which the file comes and goes and stops being writable. *)
Definition eventful : list event :=
  [Load; Save example_body; FileBecomes Unreadable; Load; WritableBecomes false].

Lemma zone_config_stays_object_witness :
  object_file (Holds stored_example)
  /\ Forall keeps_object eventful
  /\ is_object (zone_config (run eventful (initial (Holds stored_example) true)))
  /\ (save_zones example_body (run eventful (initial (Holds stored_example) true))).2
     = Raised "OSError".
Proof.
  assert (Hf : object_file (Holds stored_example)).
  { right. right. eexists. reflexivity. }
  assert (Hall : Forall keeps_object eventful).
  { unfold eventful. forall_list; simpl; trivial. right. now left. }
  split; [exact Hf|]. split; [exact Hall|].
  destruct (zone_config_stays_object eventful (Holds stored_example) true
              [("zones", JList [triangle])] Hf Hall) as (Hobj & Hsave & _).
  split; [exact Hobj|exact Hsave].
Defined.

Lemma load_zones_after_own_saves_witness :
  Forall internal [Save example_body; Load; Save (JList []); Load]
  /\ in_sync (run [Save example_body; Load; Save (JList []); Load]
                  (initial Absent true)).
Proof.
  assert (Hall : Forall internal [Save example_body; Load; Save (JList []); Load]).
  { forall_list; exact I. }
  split; [exact Hall|].
  exact (proj1 (load_zones_after_own_saves _ true Hall)).
Defined.

End ZoneFacts.

(** ** More on the training worker *)

Module WorkerFacts.
Import Json PyNum Training.

(** An upper bound on the statements a worker still runs, whatever the flag
    and whatever raises: eight per epoch not yet begun, and the way out. *)
Definition budget (w : worker) : nat :=
  let after k := (8 * Z.to_nat (epochs w - (k + 1)))%nat in
  match pc w with
  | AtFor k => (8 * Z.to_nat (epochs w - k) + 3)%nat
  | AtStopCheck k => (after k + 10)%nat
  | AtSleep k => (after k + 9)%nat
  | AtEpoch k => (after k + 8)%nat
  | AtProgress k => (after k + 7)%nat
  | AtLoss k => (after k + 6)%nat
  | AtAccuracy k => (after k + 5)%nat
  | AtMessage k => (after k + 4)%nat
  | AtCompleted | AtExcept _ => 2%nat
  | AtFinally => 1%nat
  | Finished => 0%nat
  end.

Ltac worker_cases w :=
  let p := fresh "p" in
  destruct w as [? ? p]; destruct p; unfold training_worker_step, goto, budget;
  simpl;
  repeat match goal with
    | |- context [match ?x with Value _ => _ | Raise _ => _ end] => destruct x
    | |- context [if is_training ?st then _ else _] => destruct (is_training st)
    | |- context [if ?a <? ?b then _ else _] =>
        let E := fresh "E" in
        destruct (a <? b) eqn:E;
        [apply Z.ltb_lt in E | apply Z.ltb_ge in E]
    end; simpl.

Lemma step_budget rnd st w :
  (budget (training_worker_step rnd st w).2 <= budget w - 1)%nat.
Proof. worker_cases w. all: lia. Qed.

Lemma run_budget rnd n : forall t st w,
  (budget (run_worker rnd n t st w).1.2 <= budget w - n)%nat.
Proof.
  induction n as [|n IH]; intros t st w; [simpl; lia|].
  rewrite run_worker_S. simpl.
  pose proof (step_budget (rnd t) st w).
  pose proof (IH (S t) (training_worker_step (rnd t) st w).1
                 (training_worker_step (rnd t) st w).2).
  lia.
Qed.

Lemma budget_0 w : budget w = 0%nat -> pc w = Finished.
Proof. destruct w as [? ? p]; destruct p; unfold budget; simpl; lia || reflexivity. Qed.

(** The flag is down once the thread has ended. *)
Definition ended_down (st : training_status) (w : worker) : Prop :=
  pc w = Finished -> is_training st = false.

Lemma step_ended_down rnd st w :
  ended_down st w ->
  ended_down (training_worker_step rnd st w).1 (training_worker_step rnd st w).2.
Proof.
  unfold ended_down. intros H.
  destruct w as [? ? p]; destruct p; unfold training_worker_step, goto; simpl in *;
    repeat match goal with
      | |- context [match ?x with Value _ => _ | Raise _ => _ end] => destruct x
      | |- context [if ?b then _ else _] => destruct b
      end; simpl; auto; discriminate.
Qed.

Lemma run_ended_down rnd n : forall t st w,
  ended_down st w ->
  ended_down (run_worker rnd n t st w).1.1 (run_worker rnd n t st w).1.2.
Proof.
  induction n as [|n IH]; intros t st w H; [exact H|].
  rewrite run_worker_S. simpl. apply IH. now apply step_ended_down.
Qed.

(** What holds of a job that was started with [n] epochs and has not been
    stopped, after [done] epoch advances. *)
Definition on_track (n : Z) (done : nat) (st : training_status) (w : worker)
    : Prop :=
  epochs w = n /\
  match pc w with
  | AtFor k =>
      is_training st = true /\ 0 <= k <= Z.max n 0 /\ epoch st = k
      /\ done = Z.to_nat k
  | AtStopCheck k | AtSleep k | AtEpoch k =>
      is_training st = true /\ 0 <= k < n /\ epoch st = k /\ done = Z.to_nat k
  | AtProgress k | AtLoss k | AtAccuracy k | AtMessage k =>
      is_training st = true /\ 0 <= k < n /\ epoch st = k + 1
      /\ done = Z.to_nat (k + 1)
  | AtCompleted =>
      is_training st = true /\ epoch st = Z.max n 0 /\ done = Z.to_nat n
  | AtExcept _ => True
  | AtFinally | Finished =>
      (message st = "Training completed!" /\ epoch st = Z.max n 0
       /\ done = Z.to_nat n)
      \/ exists msg, message st = "Error: " ++ msg
  end.

Lemma step_on_track rnd n done st w :
  on_track n done st w ->
  on_track n (done + (if is_advance (pc w) then 1 else 0))
    (training_worker_step rnd st w).1 (training_worker_step rnd st w).2.
Proof.
  unfold on_track. intros [Hn H].
  destruct w as [ty m p]. simpl in Hn. subst m.
  destruct p; unfold training_worker_step, goto; simpl in *;
    try (destruct H as (Hflag & Hk & He & Hd); rewrite ?Hflag);
    repeat match goal with
      | |- context [match ?x with Value _ => _ | Raise _ => _ end] => destruct x
      | |- context [if ?a <? ?b then _ else _] =>
          let E := fresh "E" in
          destruct (a <? b) eqn:E;
          [apply Z.ltb_lt in E | apply Z.ltb_ge in E]
      end; simpl; (split; [reflexivity|]); auto;
    try (repeat split; auto; lia).
  - destruct H as (Hflag & He & Hd). rewrite Hflag. left. simpl.
    repeat split; auto; lia.
  - right. eauto.
  - rewrite Nat.add_0_r. exact H.
  - rewrite Nat.add_0_r. exact H.
Qed.

Lemma run_on_track rnd n fuel : forall t done st w,
  on_track n done st w ->
  on_track n (done + advances (run_worker rnd fuel t st w).2)
    (run_worker rnd fuel t st w).1.1 (run_worker rnd fuel t st w).1.2.
Proof.
  induction fuel as [|fuel IH]; intros t done st w H.
  - simpl. unfold advances. simpl. now rewrite Nat.add_0_r.
  - rewrite run_worker_S. simpl. rewrite advances_cons, Nat.add_assoc.
    apply IH. now apply step_on_track.
Qed.

(** [training_worker] always ends, and with the flag down: whatever the
    status, the random draws, the requests that came in before and whatever
    raised, a worker that stands at the head of the loop with [epochs - k]
    epochs to go has ended after [8 * (epochs - k) + 3] of its statements, and
    [is_training] is then false. *)
Theorem training_worker_always_ends (rnd : nat -> float) (st : training_status)
    (w : worker) (fuel t : nat) :
  (budget w <= fuel)%nat -> pc w <> Finished ->
  let r := run_worker rnd fuel t st w in
  pc r.1.2 = Finished
  /\ is_training r.1.1 = false
  /\ forall ty n, budget (new_worker ty n) = (8 * Z.to_nat n + 3)%nat.
Proof.
  intros Hfuel Hpc r.
  assert (Hend : pc r.1.2 = Finished).
  { apply budget_0. pose proof (run_budget rnd fuel t st w). fold r in H. lia. }
  split; [exact Hend|]. split.
  - apply (run_ended_down rnd fuel t st w); [|exact Hend].
    intros H. contradiction.
  - intros ty n. unfold budget, new_worker. simpl. now rewrite Z.sub_0_r.
Qed.

(** A job started with [epochs = n] and left alone ends in one of two ways:
    with the message of completion, [epoch] at [n] (at 0 when [n] is
    negative) and exactly [n] epoch advances behind it, or with an ['Error: ']
    message set by the [except] clause. *)
Theorem fresh_job_completes_or_reports (rnd : nat -> float) (ty : json) (n : Z)
    (fuel : nat) :
  (8 * Z.to_nat n + 3 <= fuel)%nat ->
  let r := run_worker rnd fuel 0 (reset_status n) (new_worker ty n) in
  pc r.1.2 = Finished
  /\ is_training r.1.1 = false
  /\ ((message r.1.1 = "Training completed!" /\ epoch r.1.1 = Z.max n 0
       /\ advances r.2 = Z.to_nat n)
      \/ exists msg, message r.1.1 = "Error: " ++ msg).
Proof.
  intros Hfuel r.
  assert (Hb : budget (new_worker ty n) = (8 * Z.to_nat n + 3)%nat).
  { unfold budget, new_worker. simpl. now rewrite Z.sub_0_r. }
  assert (Hend : pc r.1.2 = Finished).
  { apply budget_0.
    pose proof (run_budget rnd fuel 0 (reset_status n) (new_worker ty n)) as H.
    fold r in H. lia. }
  split; [exact Hend|]. split.
  - apply (run_ended_down rnd fuel 0 (reset_status n) (new_worker ty n));
      [|exact Hend].
    intros H. discriminate.
  - assert (H0 : on_track n 0 (reset_status n) (new_worker ty n)).
    { unfold on_track. simpl. repeat split; lia. }
    pose proof (run_on_track rnd n fuel 0 0%nat _ _ H0) as H.
    fold r in H. unfold on_track in H. rewrite Hend in H.
    destruct H as [_ H]. exact H.
Qed.

(** A job started with [epochs] zero or negative runs no epoch: the worker
    ends after three statements, with the message of completion while
    [progress] and [epoch] are still 0. *)
Theorem no_epochs_completes_at_once (rnd : nat -> float) (ty : json) (n : Z) :
  n <= 0 ->
  run_worker rnd 3 0 (reset_status n) (new_worker ty n)
  = ({| is_training := false; progress := 0; epoch := 0; total_epochs := n;
        loss := 0; accuracy := 0; message := "Training completed!" |},
     {| training_type := ty; epochs := n; pc := Finished |},
     [AtFor 0; AtCompleted; AtFinally]).
Proof.
  intros Hn. unfold run_worker, training_worker_step, new_worker, goto. simpl.
  destruct (0 <? n) eqn:E; [apply Z.ltb_lt in E; lia|]. reflexivity.
Qed.

(** The guard of [start_training] protects a job only while the flag is
    up.  After [stop_training] a new job is accepted at once, whether or not
    the worker of the stopped job has ended; a worker of the stopped job that
    has not yet read the flag then finds it up again and goes on into its next
    epoch, writing to the status of the new job. *)
Theorem stop_then_start_revives_worker (int_of_str : string -> py Z)
    (rnd : float) (st : training_status) (fields : list (string * json))
    (n k : Z) (w : worker) :
  py_int int_of_str (dict_get_default "epochs" (JInt 10) fields) = Value n ->
  pc w = AtStopCheck k ->
  let restarted :=
    start_training int_of_str (JObject fields) (stop_training st).1 in
  restarted
    = (reset_status n,
       Answered training_started
         (Some (new_worker (dict_get_default "type" (JString "detection") fields) n)))
  /\ pc (training_worker_step rnd restarted.1 w).2 = AtSleep k
  /\ pc (training_worker_step rnd (stop_training st).1 w).2 = AtCompleted.
Proof.
  intros Hn Hpc restarted.
  assert (Hr : restarted
               = (reset_status n,
                  Answered training_started
                    (Some (new_worker
                             (dict_get_default "type" (JString "detection") fields) n)))).
  { subst restarted. unfold start_training, stop_training. simpl. now rewrite Hn. }
  split; [exact Hr|]. rewrite Hr. unfold training_worker_step. rewrite Hpc.
  split; reflexivity.
Qed.

(** *** The theorems at work *)

Lemma training_worker_always_ends_witness :
  (budget (goto (AtLoss 1) (new_worker JNull 2)) <= 9)%nat
  /\ pc (goto (AtLoss 1) (new_worker JNull 2)) <> Finished
  /\ pc (run_worker (fun _ => 0.25%float) 9 0 midway
           (goto (AtLoss 1) (new_worker JNull 2))).1.2 = Finished.
Proof.
  assert (Hb : (budget (goto (AtLoss 1) (new_worker JNull 2)) <= 9)%nat).
  { unfold budget. simpl. lia. }
  assert (Hpc : pc (goto (AtLoss 1) (new_worker JNull 2)) <> Finished)
    by discriminate.
  split; [exact Hb|]. split; [exact Hpc|].
  exact (proj1 (training_worker_always_ends (fun _ => 0.25%float) midway
                  (goto (AtLoss 1) (new_worker JNull 2)) 9 0 Hb Hpc)).
Defined.

Lemma fresh_job_completes_or_reports_witness :
  (8 * Z.to_nat 2 + 3 <= 19)%nat
  /\ pc (run_worker (fun _ => 0.25%float) 19 0 (reset_status 2)
           (new_worker JNull 2)).1.2 = Finished.
Proof.
  assert (Hf : (8 * Z.to_nat 2 + 3 <= 19)%nat) by (simpl; lia).
  split; [exact Hf|].
  exact (proj1 (fresh_job_completes_or_reports (fun _ => 0.25%float) JNull 2 19 Hf)).
Defined.

Lemma no_epochs_completes_at_once_witness :
  -1 <= 0
  /\ message (run_worker (fun _ => 0.25%float) 3 0 (reset_status (-1))
                (new_worker JNull (-1))).1.1 = "Training completed!".
Proof.
  assert (Hn : -1 <= 0) by lia.
  split; [exact Hn|].
  rewrite (no_epochs_completes_at_once (fun _ => 0.25%float) JNull (-1) Hn).
  reflexivity.
Defined.

Lemma stop_then_start_revives_worker_witness :
  py_int toy_int_of_str (dict_get_default "epochs" (JInt 10) []) = Value 10
  /\ pc (goto (AtStopCheck 1) (new_worker JNull 3)) = AtStopCheck 1
  /\ pc (training_worker_step 0.25%float
           (start_training toy_int_of_str (JObject []) (stop_training midway).1).1
           (goto (AtStopCheck 1) (new_worker JNull 3))).2 = AtSleep 1.
Proof.
  split; [reflexivity|]. split; [reflexivity|].
  exact (proj1 (proj2 (stop_then_start_revives_worker toy_int_of_str 0.25%float
                         midway [] 10 1 (goto (AtStopCheck 1) (new_worker JNull 3))
                         eq_refl eq_refl))).
Defined.

End WorkerFacts.

(** ** More on the camera session *)

Module CameraFacts.
Import Json Camera.
Local Open Scope list_scope.

Section Encoding.

Variable imencode : image -> option (list Byte.byte).
Variable b64encode : list Byte.byte -> string.

Local Abbreviation step := (step imencode b64encode).
Local Abbreviation run := (run imencode b64encode).
Local Abbreviation reachable := (reachable imencode b64encode).
Local Abbreviation get_frame_step := (get_frame_step imencode b64encode).

(** What the threads leave alone: the capture object, the source identity,
    the flag, and the bookkeeping of the capture objects. *)
Definition same_session (w w' : world) : Prop :=
  camera (mgr w') = camera (mgr w)
  /\ camera_id (mgr w') = camera_id (mgr w)
  /\ is_streaming (mgr w') = is_streaming (mgr w)
  /\ released w' = released w
  /\ next_handle w' = next_handle w.

Lemma capture_loop_step_effect i rd w w' :
  capture_loop_step i rd w = Some w' ->
  same_session w w' /\ readers w' = readers w
  /\ exists p p', loops w !! i = Some p /\ loops w' = <[i := p']> (loops w).
Proof.
  unfold capture_loop_step, same_session. intros Hstep.
  destruct (loops w !! i) as [p|] eqn:Hp; simpl in Hstep; [|discriminate].
  destruct p;
    repeat match type of Hstep with
      | match ?x with Some _ => _ | None => _ end = _ =>
          let E := fresh "E" in destruct x eqn:E
      end;
    try discriminate; injection Hstep as <-; simpl;
    (split; [repeat split; congruence|]); (split; [reflexivity|]); eauto.
Qed.

Lemma get_frame_step_effect j w w' :
  get_frame_step j w = Some w' ->
  same_session w w' /\ loops w' = loops w /\ frame (mgr w') = frame (mgr w)
  /\ exists p p', readers w !! j = Some p /\ readers w' = <[j := p']> (readers w).
Proof.
  unfold Camera.get_frame_step, same_session. intros Hstep.
  destruct (readers w !! j) as [p|] eqn:Hp; simpl in Hstep; [|discriminate].
  destruct p;
    try match type of Hstep with
      | match lock (mgr w) with Some _ => _ | None => _ end = _ =>
          destruct (lock (mgr w))
      end;
    try discriminate; injection Hstep as <-; simpl;
    (split; [repeat split|]); (split; [reflexivity|]); (split; [reflexivity|]);
    eauto.
Qed.

Lemma alive_snoc (l : list loop_pc) :
  length (filter (fun p => loop_alive p = true) (l ++ [LoopTest]))
  = S (length (filter (fun p => loop_alive p = true) l)).
Proof. rewrite filter_app, length_app. simpl. lia. Qed.

Lemma reachable_ind (P : world -> Prop) :
  P initial ->
  (forall w e w', P w -> step w e = Some w' -> P w') ->
  forall w, reachable w -> P w.
Proof.
  intros Hinit Hstep.
  assert (H : forall events w0 w1, P w0 -> run events w0 = Some w1 -> P w1).
  { intros events. induction events as [|e rest IH]; intros w0 w1 H0 Hrun;
      simpl in Hrun.
    - now injection Hrun as <-.
    - destruct (step w0 e) as [w2|] eqn:He; simpl in Hrun; [|discriminate]. eauto. }
  intros w [events Hrun]. eauto.
Qed.

(** *** The session fields *)

(** The flag is up exactly when a source identity is recorded, and then a
    capture object is in place and a capture thread is alive. *)
Definition session_inv (w : world) : Prop :=
  (is_streaming (mgr w) = true <-> camera_id (mgr w) <> None)
  /\ (is_streaming (mgr w) = true ->
      camera (mgr w) <> None /\ (1 <= alive_loops w)%nat).

Lemma step_session_inv w e w' :
  session_inv w -> step w e = Some w' -> session_inv w'.
Proof.
  unfold session_inv.
  intros [Hid Hs] Hstep. destruct e as [id env|url env| | |i rd|j]; simpl in Hstep.
  - injection Hstep as <-. destruct w as [[c cid s f l] lp rd rel nh].
    unfold connect, alive_loops in *. simpl in *.
    destruct c, env as [exn|[] []]; simpl; rewrite ?alive_snoc;
      (split; [first [exact Hid | split; [intros _; discriminate|reflexivity]]|]);
      intros Hst;
      (split; [first [discriminate | apply (Hs Hst)] | first [lia | apply (Hs Hst)]]).
  - injection Hstep as <-. destruct w as [[c cid s f l] lp rd rel nh].
    unfold connect_ip, alive_loops in *. simpl in *.
    destruct c, env as [exn|[] []]; simpl; rewrite ?alive_snoc;
      (split; [first [exact Hid | split; [intros _; discriminate|reflexivity]]|]);
      intros Hst;
      (split; [first [discriminate | apply (Hs Hst)] | first [lia | apply (Hs Hst)]]).
  - injection Hstep as <-. destruct (disconnect_fields w) as (Hm & _).
    rewrite Hm. simpl. split; [split; [discriminate|congruence]|discriminate].
  - injection Hstep as <-. exact (conj Hid Hs).
  - destruct (capture_loop_step_effect i rd w w' Hstep) as ((Hc & Hcid & Hst & _) & _).
    destruct (capture_loop_step_streaming i rd w w' Hstep) as (_ & _ & Ha).
    rewrite Hc, Hcid, Hst. split; [exact Hid|].
    intros H. destruct (Hs H) as [Hcam Hal]. split; [exact Hcam|].
    now rewrite (Ha H Hcam).
  - destruct (get_frame_step_effect j w w' Hstep) as ((Hc & Hcid & Hst & _) & Hl & _).
    unfold alive_loops. rewrite Hc, Hcid, Hst, Hl. exact (conj Hid Hs).
Qed.

(** In every state the program can reach, [is_streaming] is true exactly
    when [camera_id] is set; and while it is true, [camera] holds a capture
    object and at least one capture thread is alive. *)
Theorem streaming_has_source_and_loop (w : world) :
  reachable w ->
  (is_streaming (mgr w) = true <-> camera_id (mgr w) <> None)
  /\ (is_streaming (mgr w) = true ->
      camera (mgr w) <> None /\ (1 <= alive_loops w)%nat).
Proof.
  apply (reachable_ind session_inv).
  - unfold session_inv. simpl.
    split; [split; [discriminate|congruence]|discriminate].
  - apply step_session_inv.
Qed.

(** *** The capture objects *)

(** Every capture object created so far has had [release()] called on it,
    or is the one in [self.camera]. *)
Definition handles_inv (w : world) : Prop :=
  (forall h, (h < next_handle w)%nat ->
     h ∈ released w \/ camera (mgr w) = Some h)
  /\ (forall h, h ∈ released w -> (h < next_handle w)%nat)
  /\ (forall h, camera (mgr w) = Some h -> (h < next_handle w)%nat).

Lemma connect_handles id env w :
  handles_inv w -> handles_inv (connect id env w).1.
Proof.
  unfold handles_inv. intros (Hall & Hrel & Hcam).
  destruct w as [[c cid s f l] lp rd rel nh]. unfold connect. simpl in *.
  destruct c as [old|], env as [exn|[] []]; simpl;
    repeat split; intros h;
    rewrite ?elem_of_app, ?list_elem_of_singleton;
    try (intros [H | ->]; [apply Hrel in H | specialize (Hcam old eq_refl)]; lia);
    try (intros [= <-]; lia);
    try (intros H; apply Hrel in H; lia);
    try (intros H; destruct (decide (h = nh)) as [->|Hne]; [now right|];
         destruct (Hall h ltac:(lia)) as [Hin | [= ->]]; auto);
    try (intros H; destruct (Hall h H) as [Hin | [= ->]]; auto);
    try (intros [= ->]; apply Hcam; reflexivity).
Qed.

Lemma connect_ip_handles url env w :
  handles_inv w -> handles_inv (connect_ip url env w).1.
Proof.
  unfold handles_inv. intros (Hall & Hrel & Hcam).
  destruct w as [[c cid s f l] lp rd rel nh]. unfold connect_ip. simpl in *.
  destruct c as [old|], env as [exn|[] []]; simpl;
    repeat split; intros h;
    rewrite ?elem_of_app, ?list_elem_of_singleton;
    try (intros [H | ->]; [apply Hrel in H | specialize (Hcam old eq_refl)]; lia);
    try (intros [= <-]; lia);
    try (intros H; apply Hrel in H; lia);
    try (intros H; destruct (decide (h = nh)) as [->|Hne]; [now right|];
         destruct (Hall h ltac:(lia)) as [Hin | [= ->]]; auto);
    try (intros H; destruct (Hall h H) as [Hin | [= ->]]; auto);
    try (intros [= ->]; apply Hcam; reflexivity).
Qed.

Lemma disconnect_handles w : handles_inv w -> handles_inv (disconnect w).
Proof.
  unfold handles_inv. intros (Hall & Hrel & Hcam).
  destruct (disconnect_fields w) as (Hm & _ & _ & Hn & Hr).
  rewrite Hm, Hn, Hr. simpl.
  destruct (camera (mgr w)) as [old|]; repeat split; intros h;
    rewrite ?elem_of_app, ?list_elem_of_singleton;
    try discriminate; auto.
  - intros H. destruct (Hall h H) as [Hin | [= ->]]; auto.
  - intros [H | ->]; auto.
Qed.

Lemma step_handles_inv w e w' :
  handles_inv w -> step w e = Some w' -> handles_inv w'.
Proof.
  intros Hinv Hstep. destruct e as [id env|url env| | |i rd|j]; simpl in Hstep.
  - injection Hstep as <-. now apply connect_handles.
  - injection Hstep as <-. now apply connect_ip_handles.
  - injection Hstep as <-. now apply disconnect_handles.
  - injection Hstep as <-. exact Hinv.
  - destruct (capture_loop_step_effect i rd w w' Hstep)
      as ((Hc & _ & _ & Hr & Hn) & _).
    unfold handles_inv. rewrite Hc, Hr, Hn. exact Hinv.
  - destruct (get_frame_step_effect j w w' Hstep) as ((Hc & _ & _ & Hr & Hn) & _).
    unfold handles_inv. rewrite Hc, Hr, Hn. exact Hinv.
Qed.

(** No capture object is leaked: in every state the program can reach, each
    capture object created so far has been released or is the one held in
    [self.camera], so at most one is unreleased. *)
Theorem capture_objects_released_or_current (w : world) (h : handle) :
  reachable w -> (h < next_handle w)%nat ->
  h ∈ released w \/ camera (mgr w) = Some h.
Proof.
  intros Hreach. revert h.
  refine (proj1 (reachable_ind handles_inv _ step_handles_inv w Hreach)).
  unfold handles_inv. simpl. repeat split; intros h; try lia; try discriminate.
  intros H. now apply elem_of_nil in H.
Qed.

(** *** The holder of the lock *)

(** The statement a thread runs next, with a failing read if it reads. *)
Definition next_of (t : thread) : event :=
  match t with
  | CaptureThread i => LoopStep i None
  | FrameRequest j => ReaderStep j
  end.

(** The lock is held by a thread that is inside its [with] block. *)
Definition owner_inv (w : world) : Prop :=
  forall t, lock (mgr w) = Some t -> inside w t.

Lemma inside_grows w w' t :
  (exists l, loops w' = loops w ++ l) -> (exists l, readers w' = readers w ++ l) ->
  inside w t -> inside w' t.
Proof.
  intros [l Hl] [r Hr]. destruct t as [i|j]; simpl; intros (p & Hp & Hh);
    exists p; (split; [|exact Hh]).
  - rewrite Hl. now apply lookup_app_l_Some.
  - rewrite Hr. now apply lookup_app_l_Some.
Qed.

Lemma inside_set_loop_other i p w t :
  t <> CaptureThread i -> inside w t -> inside (set_loop i p w) t.
Proof.
  destruct t as [k|j]; simpl; intros Hne (q & Hq & Hh); exists q;
    (split; [|exact Hh]); [|exact Hq].
  rewrite list_lookup_insert_ne by congruence. exact Hq.
Qed.

Lemma inside_set_loop_self i p q w :
  loops w !! i = Some q -> loop_holds p = true ->
  inside (set_loop i p w) (CaptureThread i).
Proof.
  intros Hq Hh. simpl. exists p. split; [|exact Hh].
  apply list_lookup_insert_eq. eapply lookup_lt_Some. exact Hq.
Qed.

Lemma inside_set_reader_other j p w t :
  t <> FrameRequest j -> inside w t -> inside (set_reader j p w) t.
Proof.
  destruct t as [i|k]; simpl; intros Hne (q & Hq & Hh); exists q;
    (split; [|exact Hh]); [exact Hq|].
  rewrite list_lookup_insert_ne by congruence. exact Hq.
Qed.

Lemma inside_set_reader_self j p q w :
  readers w !! j = Some q -> reader_holds p = true ->
  inside (set_reader j p w) (FrameRequest j).
Proof.
  intros Hq Hh. simpl. exists p. split; [|exact Hh].
  apply list_lookup_insert_eq. eapply lookup_lt_Some. exact Hq.
Qed.

Lemma inside_with_mgr f w t : inside (with_mgr f w) t <-> inside w t.
Proof. destruct t; reflexivity. Qed.

Lemma inside_set_loop_keep i p q w t :
  loops w !! i = Some q -> (loop_holds q = true -> loop_holds p = true) ->
  inside w t -> inside (set_loop i p w) t.
Proof.
  intros Hq Hkeep Ht. destruct t as [k|j].
  - destruct (decide (k = i)) as [->|Hne].
    + apply (inside_set_loop_self i p q w Hq). apply Hkeep.
      destruct Ht as (q' & Hq' & Hh). congruence.
    + apply inside_set_loop_other; [congruence|exact Ht].
  - apply inside_set_loop_other; [discriminate|exact Ht].
Qed.

Lemma inside_set_reader_keep j p q w t :
  readers w !! j = Some q -> (reader_holds q = true -> reader_holds p = true) ->
  inside w t -> inside (set_reader j p w) t.
Proof.
  intros Hq Hkeep Ht. destruct t as [i|k].
  - apply inside_set_reader_other; [discriminate|exact Ht].
  - destruct (decide (k = j)) as [->|Hne].
    + apply (inside_set_reader_self j p q w Hq). apply Hkeep.
      destruct Ht as (q' & Hq' & Hh). congruence.
    + apply inside_set_reader_other; [congruence|exact Ht].
Qed.

Lemma capture_loop_step_owner i rd w w' :
  owner_inv w -> capture_loop_step i rd w = Some w' -> owner_inv w'.
Proof.
  unfold owner_inv, capture_loop_step. intros Hown Hstep.
  destruct (loops w !! i) as [p|] eqn:Hp; simpl in Hstep; [|discriminate].
  destruct p;
    repeat match type of Hstep with
      | match ?x with Some _ => _ | None => _ end = _ =>
          let E := fresh "E" in destruct x eqn:E
      end;
    try discriminate; injection Hstep as <-; simpl; intros t Ht;
    try discriminate;
    try (apply (inside_set_loop_keep i _ _ _ t Hp); [discriminate || auto|];
         apply Hown; congruence).
  - injection Ht as <-. now apply (inside_set_loop_self i _ (LoopAcquire f)).
Qed.

Lemma get_frame_step_owner j w w' :
  owner_inv w -> get_frame_step j w = Some w' -> owner_inv w'.
Proof.
  unfold owner_inv, Camera.get_frame_step. intros Hown Hstep.
  destruct (readers w !! j) as [p|] eqn:Hp; simpl in Hstep; [|discriminate].
  destruct p;
    try match type of Hstep with
      | match lock (mgr w) with Some _ => _ | None => _ end = _ =>
          let E := fresh "E" in destruct (lock (mgr w)) eqn:E
      end;
    try discriminate; injection Hstep as <-; simpl; intros t Ht;
    try discriminate;
    try (apply (inside_set_reader_keep j _ _ _ t Hp); [discriminate || auto|];
         apply Hown; congruence).
  - injection Ht as <-. now apply (inside_set_reader_self j _ ReadAcquire).
  - apply (inside_set_reader_keep j _ _ _ t Hp); [|now apply Hown].
    intros _. now destruct (frame (mgr w)).
  - apply (inside_set_reader_keep j _ _ _ t Hp); [|now apply Hown].
    intros _. destruct (frame (mgr w)) as [f|]; [now destruct (imencode f)|reflexivity].
Qed.

Lemma step_owner_inv w e w' : owner_inv w -> step w e = Some w' -> owner_inv w'.
Proof.
  intros Hown Hstep. destruct e as [id env|url env| | |i rd|j]; simpl in Hstep.
  - injection Hstep as <-. intros t Ht.
    destruct (connect_threads id env w) as (Hl & Hr & Hs). rewrite Hl in Ht.
    apply (inside_grows w); [| |auto].
    + destruct Hs as [-> | ->]; [exists []; now rewrite app_nil_r|eauto].
    + exists []. now rewrite Hr, app_nil_r.
  - injection Hstep as <-. intros t Ht.
    destruct (connect_ip_threads url env w) as (Hl & Hr & Hs). rewrite Hl in Ht.
    apply (inside_grows w); [| |auto].
    + destruct Hs as [-> | ->]; [exists []; now rewrite app_nil_r|eauto].
    + exists []. now rewrite Hr, app_nil_r.
  - injection Hstep as <-. intros t Ht.
    destruct (disconnect_fields w) as (Hm & Hl & Hr & _). rewrite Hm in Ht.
    apply (inside_grows w); [| |auto].
    + exists []. now rewrite Hl, app_nil_r.
    + exists []. now rewrite Hr, app_nil_r.
  - injection Hstep as <-. intros t Ht. simpl in Ht.
    apply (inside_grows w); [| |auto]; simpl; eauto.
    exists []. now rewrite app_nil_r.
  - eauto using capture_loop_step_owner.
  - eauto using get_frame_step_owner.
Qed.

Lemma reachable_owner_inv w : reachable w -> owner_inv w.
Proof.
  apply (reachable_ind owner_inv); [|apply step_owner_inv].
  intros t Ht. discriminate.
Qed.

Lemma lookup_set_loop i p q w :
  loops w !! i = Some q -> loops (set_loop i p w) !! i = Some p.
Proof. intros Hq. simpl. apply list_lookup_insert_eq. eapply lookup_lt_Some, Hq. Qed.

Lemma lookup_set_reader j p q w :
  readers w !! j = Some q -> readers (set_reader j p w) !! j = Some p.
Proof. intros Hq. simpl. apply list_lookup_insert_eq. eapply lookup_lt_Some, Hq. Qed.

Lemma run_cons e rest w w1 :
  step w e = Some w1 -> run (e :: rest) w = run rest w1.
Proof. intros H. simpl. now rewrite H. Qed.

Lemma run_loop_cons i rd rest w w1 :
  capture_loop_step i rd w = Some w1 -> run (LoopStep i rd :: rest) w = run rest w1.
Proof. intros H. simpl. now rewrite H. Qed.

Lemma run_reader_cons j rest w w1 :
  get_frame_step j w = Some w1 -> run (ReaderStep j :: rest) w = run rest w1.
Proof. intros H. simpl. now rewrite H. Qed.

Lemma run_loop_one i rd w w1 :
  capture_loop_step i rd w = Some w1 -> run [LoopStep i rd] w = Some w1.
Proof. intros H. simpl. now rewrite H. Qed.

Lemma run_reader_one j w w1 :
  get_frame_step j w = Some w1 -> run [ReaderStep j] w = Some w1.
Proof. intros H. simpl. now rewrite H. Qed.

Lemma loop_step_at i rd w p :
  loops w !! i = Some p ->
  capture_loop_step i rd w
  = match p with
    | LoopTest =>
        Some (set_loop i (if is_streaming (mgr w)
                             && bool_decide (camera (mgr w) <> None)
                          then LoopRead else LoopExited) w)
    | LoopRead =>
        match camera (mgr w) with
        | None => Some (set_loop i LoopCrashed w)
        | Some _ =>
            Some (set_loop i (match rd with
                              | Some f => LoopAcquire f
                              | None => LoopSleep
                              end) w)
        end
    | LoopAcquire f =>
        match lock (mgr w) with
        | None => Some (set_loop i (LoopStore f) (set_lock (Some (CaptureThread i)) w))
        | Some _ => None
        end
    | LoopStore f => Some (set_loop i LoopRelease (set_frame (Some f) w))
    | LoopRelease => Some (set_loop i LoopSleep (set_lock None w))
    | LoopSleep => Some (set_loop i LoopTest w)
    | LoopExited | LoopCrashed => None
    end.
Proof. intros Hp. unfold capture_loop_step. now rewrite Hp. Qed.

Lemma reader_step_at j w p :
  readers w !! j = Some p ->
  get_frame_step j w
  = match p with
    | ReadAcquire =>
        match lock (mgr w) with
        | None => Some (set_reader j ReadTest (set_lock (Some (FrameRequest j)) w))
        | Some _ => None
        end
    | ReadTest =>
        Some (set_reader j (match frame (mgr w) with
                            | None => ReadRelease None
                            | Some _ => ReadEncode
                            end) w)
    | ReadEncode =>
        Some (set_reader j (match frame (mgr w) with
                            | None => ReadRaise
                            | Some f =>
                                match imencode f with
                                | Some jpeg => ReadRelease (Some (b64encode jpeg))
                                | None => ReadRelease None
                                end
                            end) w)
    | ReadRelease r => Some (set_reader j (ReadReturned r) (set_lock None w))
    | ReadRaise => Some (set_reader j ReadRaised (set_lock None w))
    | ReadReturned _ | ReadRaised => None
    end.
Proof. intros Hp. unfold Camera.get_frame_step. now rewrite Hp. Qed.

(** A thread in its block leaves it by its own statements: two for a capture
    thread, three at most for a frame request. *)
Lemma loop_leaves_block i p w :
  loops w !! i = Some p -> loop_holds p = true ->
  exists n w', (n <= 2)%nat /\ run (repeat (LoopStep i None) n) w = Some w'
               /\ lock (mgr w') = None.
Proof.
  intros Hp Hh. destruct p; try discriminate.
  - exists 2%nat, (set_loop i LoopSleep
                     (set_lock None (set_loop i LoopRelease (set_frame (Some f) w)))).
    split; [lia|]. split; [|reflexivity]. cbn [repeat].
    rewrite (run_loop_cons _ _ _ _ _ (loop_step_at i None w _ Hp)).
    apply run_loop_one.
    now rewrite (loop_step_at i None _ LoopRelease
                   (lookup_set_loop i LoopRelease _ (set_frame (Some f) w) Hp)).
  - exists 1%nat, (set_loop i LoopSleep (set_lock None w)).
    split; [lia|]. split; [|reflexivity]. cbn [repeat].
    apply run_loop_one. apply (loop_step_at i None w _ Hp).
Qed.

Lemma release_step j r w :
  readers w !! j = Some (ReadRelease r) ->
  run [ReaderStep j] w = Some (set_reader j (ReadReturned r) (set_lock None w)).
Proof. intros Hp. apply run_reader_one. apply (reader_step_at j w _ Hp). Qed.

Lemma raise_step j w :
  readers w !! j = Some ReadRaise ->
  run [ReaderStep j] w = Some (set_reader j ReadRaised (set_lock None w)).
Proof. intros Hp. apply run_reader_one. apply (reader_step_at j w _ Hp). Qed.

Lemma encode_leaves_block j w :
  readers w !! j = Some ReadEncode ->
  exists w', run [ReaderStep j; ReaderStep j] w = Some w' /\ lock (mgr w') = None.
Proof.
  intros Hp. pose proof (reader_step_at j w _ Hp) as H1. simpl in H1.
  destruct (frame (mgr w)) as [f|]; [destruct (imencode f) as [jpeg|]|];
    eexists; (split; [rewrite (run_reader_cons _ _ _ _ H1)|]).
  1, 3: apply release_step; apply (lookup_set_reader j _ _ w Hp).
  3: apply raise_step; apply (lookup_set_reader j _ _ w Hp).
  all: reflexivity.
Qed.

Lemma reader_leaves_block j p w :
  readers w !! j = Some p -> reader_holds p = true ->
  exists n w', (n <= 3)%nat /\ run (repeat (ReaderStep j) n) w = Some w'
               /\ lock (mgr w') = None.
Proof.
  intros Hp Hh. destruct p; try discriminate.
  - pose proof (reader_step_at j w _ Hp) as H1. simpl in H1.
    destruct (frame (mgr w)) as [f|] eqn:Hf.
    + destruct (encode_leaves_block j (set_reader j ReadEncode w))
        as (w' & Hrun & Hlock).
      { apply (lookup_set_reader j _ _ w Hp). }
      exists 3%nat, w'. split; [lia|]. split; [|exact Hlock]. cbn [repeat].
      now rewrite (run_reader_cons _ _ _ _ H1).
    + exists 2%nat. eexists. split; [lia|]. cbn [repeat].
      rewrite (run_reader_cons _ _ _ _ H1). split.
      * apply release_step. apply (lookup_set_reader j _ _ w Hp).
      * reflexivity.
  - destruct (encode_leaves_block j w Hp) as (w' & Hrun & Hlock).
    exists 2%nat, w'. split; [lia|]. cbn [repeat]. split; assumption.
  - exists 1%nat. eexists. split; [lia|]. cbn [repeat].
    split; [exact (release_step j _ w Hp)|reflexivity].
  - exists 1%nat. eexists. split; [lia|]. cbn [repeat].
    split; [exact (raise_step j w Hp)|reflexivity].
Qed.

Lemma holder_releases w t :
  inside w t ->
  exists n w', (n <= 3)%nat /\ run (repeat (next_of t) n) w = Some w'
               /\ lock (mgr w') = None.
Proof.
  destruct t as [i|j]; simpl; intros (p & Hp & Hh).
  - destruct (loop_leaves_block i p w Hp Hh) as (n & w' & Hn & H).
    exists n, w'. split; [lia|exact H].
  - now apply (reader_leaves_block j p w).
Qed.

(** The lock is never left behind: in every state the program can reach, a
    held lock belongs to a thread that is inside its [with self.lock] block,
    and that thread gives it back after at most three of its statements,
    also when [imencode] raises. *)
Theorem lock_is_given_back (w : world) (t : thread) :
  reachable w -> lock (mgr w) = Some t ->
  inside w t
  /\ exists n w', (n <= 3)%nat /\ run (repeat (next_of t) n) w = Some w'
                  /\ lock (mgr w') = None.
Proof.
  intros Hreach Hlock.
  pose proof (reachable_owner_inv w Hreach t Hlock) as Hin.
  split; [exact Hin|]. now apply holder_releases.
Qed.

(** *** After [disconnect] *)

Definition no_connect (e : event) : Prop :=
  match e with
  | CallConnect _ _ | CallConnectIp _ _ => False
  | _ => True
  end.

Definition is_step_of (i : nat) (e : event) : bool :=
  match e with
  | LoopStep k _ => Nat.eqb k i
  | _ => false
  end.

(** The statements capture thread [i] runs in [events]. *)
Definition steps_of (i : nat) (events : list event) : nat :=
  length (filter (fun e => is_step_of i e = true) events).

(** The statements a capture thread can still run once the flag is down
    and the capture object gone. *)
Definition loop_left (p : loop_pc) : nat :=
  match p with
  | LoopAcquire _ => 5
  | LoopStore _ => 4
  | LoopRelease => 3
  | LoopSleep => 2
  | LoopTest | LoopRead => 1
  | LoopExited | LoopCrashed => 0
  end.

Definition left_of (i : nat) (w : world) : nat :=
  from_option loop_left 0%nat (loops w !! i).

Definition stopped (w : world) : Prop :=
  is_streaming (mgr w) = false /\ camera (mgr w) = None.

Lemma left_of_set_loop i k p q w :
  loops w !! k = Some q ->
  left_of i (set_loop k p w) = if decide (i = k) then loop_left p else left_of i w.
Proof.
  intros Hq. unfold left_of. simpl. destruct (decide (i = k)) as [->|Hne].
  - rewrite list_lookup_insert_eq by (eapply lookup_lt_Some, Hq). reflexivity.
  - now rewrite list_lookup_insert_ne by congruence.
Qed.

Lemma step_stopped i w e w' :
  stopped w -> no_connect e -> step w e = Some w' ->
  stopped w'
  /\ ((if is_step_of i e then 1 else 0) + left_of i w' <= left_of i w)%nat
  /\ length (loops w') = length (loops w).
Proof.
  intros [Hs Hc] Hq Hstep.
  destruct e as [id env|url env| | |k rd|j]; simpl in Hq, Hstep; try contradiction.
  - injection Hstep as <-. destruct (disconnect_fields w) as (Hm & Hl & _).
    unfold stopped, left_of. rewrite Hm, Hl. simpl. auto.
  - injection Hstep as <-. unfold stopped, left_of. simpl. auto.
  - destruct (loops w !! k) as [p|] eqn:Hp;
      [|unfold capture_loop_step in Hstep; rewrite Hp in Hstep; discriminate].
    rewrite (loop_step_at k rd w p Hp) in Hstep.
    assert (Hi : left_of k w = loop_left p) by (unfold left_of; now rewrite Hp).
    destruct p; rewrite ?Hs, ?Hc in Hstep; simpl in Hstep;
      try match type of Hstep with
        | match lock (mgr w) with Some _ => _ | None => _ end = _ =>
            destruct (lock (mgr w))
        end;
      try discriminate; injection Hstep as <-;
      (split; [split; assumption|]);
      (split; [|simpl; apply length_insert]);
      erewrite left_of_set_loop by exact Hp; simpl;
      destruct (decide (i = k)) as [->|Hne];
      rewrite ?Nat.eqb_refl, ?Hi; simpl;
      try (replace (k =? i)%nat with false
             by (symmetry; apply Nat.eqb_neq; congruence));
      simpl; unfold left_of; simpl; lia.
  - destruct (get_frame_step_effect j w w' Hstep) as ((Hc' & _ & Hs' & _) & Hl & _).
    unfold stopped, left_of. rewrite Hc', Hs', Hl. simpl. auto.
Qed.

Lemma run_stopped i events : forall w w',
  stopped w -> Forall no_connect events -> run events w = Some w' ->
  stopped w'
  /\ (steps_of i events + left_of i w' <= left_of i w)%nat
  /\ length (loops w') = length (loops w).
Proof.
  induction events as [|e rest IH]; intros w w' Hst Hall Hrun; simpl in Hrun.
  - injection Hrun as <-. unfold steps_of. simpl. auto.
  - inversion Hall as [|? ? He Hrest]; subst.
    destruct (step w e) as [w1|] eqn:Hstep; simpl in Hrun; [|discriminate].
    destruct (step_stopped i w e w1 Hst He Hstep) as (Hst1 & Hle & Hlen).
    destruct (IH w1 w' Hst1 Hrest Hrun) as (Hst' & Hle' & Hlen').
    split; [exact Hst'|]. split; [|congruence].
    unfold steps_of in *. rewrite filter_cons.
    destruct (decide (is_step_of i e = true)) as [Hy|Hn].
    + rewrite Hy in Hle. simpl in *. lia.
    + destruct (is_step_of i e); [congruence|]. simpl in *. lia.
Qed.

Lemma left_of_bound i w : (left_of i w <= 5)%nat.
Proof.
  unfold left_of. destruct (loops w !! i) as [p|]; simpl; [|lia].
  destruct p; simpl; lia.
Qed.

(** [disconnect] stops the capture threads: as long as no [connect] comes
    in, each capture thread runs at most five more statements (the store of
    a frame it had already read, and the test that ends it), the session
    stays disconnected and no thread is added. *)
Theorem disconnect_stops_capture_threads (w w' : world) (events : list event)
    (i : nat) :
  Forall no_connect events -> run events (disconnect w) = Some w' ->
  (steps_of i events <= 5)%nat
  /\ is_streaming (mgr w') = false /\ camera (mgr w') = None
  /\ length (loops w') = length (loops w).
Proof.
  intros Hall Hrun.
  destruct (disconnect_fields w) as (Hm & Hl & _).
  assert (Hst : stopped (disconnect w)) by (unfold stopped; now rewrite Hm).
  destruct (run_stopped i events _ _ Hst Hall Hrun) as ([Hs Hc] & Hle & Hlen).
  pose proof (left_of_bound i (disconnect w)).
  repeat split; [lia|assumption|assumption|congruence].
Qed.

(** A capture thread between its [read()] and its store. *)
Definition holds_frame (p : loop_pc) : bool :=
  match p with LoopAcquire _ | LoopStore _ => true | _ => false end.

(** Nothing is buffered, and no thread has a frame to store. *)
Definition no_frame_left (w : world) : Prop :=
  frame (mgr w) = None /\ Forall (fun p => holds_frame p = false) (loops w).

Lemma step_no_frame_left w e w' :
  stopped w -> no_frame_left w -> no_connect e -> step w e = Some w' ->
  no_frame_left w'.
Proof.
  intros [Hs Hc] [Hf Hl] Hq Hstep.
  destruct e as [id env|url env| | |k rd|j]; simpl in Hq, Hstep; try contradiction.
  - injection Hstep as <-. destruct (disconnect_fields w) as (Hm & Hl' & _).
    unfold no_frame_left. rewrite Hm, Hl'. auto.
  - injection Hstep as <-. split; assumption.
  - destruct (loops w !! k) as [p|] eqn:Hp;
      [|unfold capture_loop_step in Hstep; rewrite Hp in Hstep; discriminate].
    assert (Hp' : holds_frame p = false).
    { rewrite Forall_lookup in Hl. exact (Hl k p Hp). }
    rewrite (loop_step_at k rd w p Hp) in Hstep.
    destruct p; try discriminate Hp'; rewrite ?Hs, ?Hc in Hstep; simpl in Hstep;
      try discriminate; injection Hstep as <-;
      (split; [exact Hf|]); simpl; apply Forall_insert; auto.
  - destruct (get_frame_step_effect j w w' Hstep) as (_ & Hl' & Hf' & _).
    unfold no_frame_left. rewrite Hl', Hf'. auto.
Qed.

Lemma step_camera_id w e w' :
  camera_id (mgr w) = None -> no_connect e -> step w e = Some w' ->
  camera_id (mgr w') = None.
Proof.
  intros Hid Hq Hstep.
  destruct e as [id env|url env| | |k rd|j]; simpl in Hq, Hstep; try contradiction.
  - injection Hstep as <-. destruct (disconnect_fields w) as (Hm & _). now rewrite Hm.
  - injection Hstep as <-. exact Hid.
  - destruct (capture_loop_step_effect k rd w w' Hstep) as ((_ & H & _) & _). congruence.
  - destruct (get_frame_step_effect j w w' Hstep) as ((_ & H & _) & _). congruence.
Qed.

(** Once the session is disconnected it stays so until a [connect] comes:
    the threads bring back neither the capture object nor the source
    identity, and they bring back a frame only if one of them had read it
    before. *)
Lemma run_disconnected events : forall w w',
  stopped w -> camera_id (mgr w) = None -> Forall no_connect events ->
  run events w = Some w' ->
  stopped w' /\ camera_id (mgr w') = None
  /\ (no_frame_left w -> no_frame_left w').
Proof.
  induction events as [|e rest IH]; intros w w' Hst Hid Hall Hrun; simpl in Hrun.
  - injection Hrun as <-. split; [exact Hst|]. split; [exact Hid|]. auto.
  - inversion Hall as [|? ? He Hrest]; subst.
    destruct (step w e) as [w1|] eqn:Hstep; simpl in Hrun; [|discriminate].
    destruct (step_stopped 0 w e w1 Hst He Hstep) as (Hst1 & _).
    pose proof (step_camera_id w e w1 Hid He Hstep) as Hid1.
    destruct (IH w1 w' Hst1 Hid1 Hrest Hrun) as (Hst' & Hid' & Hn').
    split; [exact Hst'|]. split; [exact Hid'|]. intros Hn. apply Hn'.
    now apply (step_no_frame_left w e).
Qed.

(** *** Where frames come from *)

(** The frames the capture objects handed out in [events]. *)
Definition offered (events : list event) : list image :=
  flat_map (fun e => match e with
                     | LoopStep _ (Some f) => [f]
                     | _ => []
                     end) events.

(** Every frame held by the buffer or by a capture thread is in [frames],
    and every answer of a frame request is the encoding of one of them. *)
Definition from_reads (frames : list image) (w : world) : Prop :=
  (forall f, frame (mgr w) = Some f -> f ∈ frames)
  /\ (forall i f, loops w !! i = Some (LoopAcquire f)
                  \/ loops w !! i = Some (LoopStore f) -> f ∈ frames)
  /\ (forall j s, readers w !! j = Some (ReadRelease (Some s))
                  \/ readers w !! j = Some (ReadReturned (Some s)) ->
        exists f jpeg, f ∈ frames /\ imencode f = Some jpeg /\ s = b64encode jpeg).

Lemma from_reads_mono frames frames' w :
  (forall f, f ∈ frames -> f ∈ frames') -> from_reads frames w ->
  from_reads frames' w.
Proof.
  intros Hsub (Hf & Hl & Hr). repeat split; eauto.
  intros j s H. destruct (Hr j s H) as (f & jpeg & Hin & He & Hs). eauto 6.
Qed.

Lemma lookup_insert_cases {A} (l : list A) i k (p q : A) :
  <[i := p]> l !! k = Some q -> (k = i /\ q = p) \/ (k <> i /\ l !! k = Some q).
Proof.
  intros H. apply list_lookup_insert_Some in H as [(-> & -> & _) | (Hne & H)];
    [left | right]; auto.
Qed.

Lemma connect_frame id env w :
  frame (mgr (connect id env w).1) = frame (mgr w).
Proof.
  destruct w as [[c cid s f l] lp rd rel nh]. unfold connect. simpl.
  destruct c, env as [exn|[] []]; reflexivity.
Qed.

Lemma connect_ip_frame url env w :
  frame (mgr (connect_ip url env w).1) = frame (mgr w).
Proof.
  destruct w as [[c cid s f l] lp rd rel nh]. unfold connect_ip. simpl.
  destruct c, env as [exn|[] []]; reflexivity.
Qed.

Lemma from_reads_new_loop frames w w' :
  frame (mgr w') = frame (mgr w) -> readers w' = readers w ->
  loops w' = loops w \/ loops w' = loops w ++ [LoopTest] ->
  from_reads frames w -> from_reads frames w'.
Proof.
  intros Hf Hr Hl (If & Il & Ir). unfold from_reads. rewrite Hf, Hr.
  repeat split; auto. intros i f H.
  destruct Hl as [Hl | Hl]; rewrite Hl in H; [eauto|].
  apply (Il i f).
  destruct H as [H | H]; apply Camera.lookup_snoc_Some in H as [H | H];
    auto; discriminate.
Qed.

Lemma capture_loop_step_from_reads frames k rd w w' :
  (forall f, rd = Some f -> f ∈ frames) ->
  from_reads frames w -> capture_loop_step k rd w = Some w' ->
  from_reads frames w'.
Proof.
  intros Hrd (If & Il & Ir) Hstep.
  destruct (loops w !! k) as [p|] eqn:Hp;
    [|unfold capture_loop_step in Hstep; rewrite Hp in Hstep; discriminate].
  rewrite (loop_step_at k rd w p Hp) in Hstep.
  destruct p;
    repeat match type of Hstep with
      | match ?x with Some _ => _ | None => _ end = _ => destruct x
      end;
    try discriminate; injection Hstep as <-;
    (split; [|split]); simpl; auto;
    try (intros f0 [= <-]; eauto);
    intros i f0 H;
    destruct H as [H | H]; apply lookup_insert_cases in H as [[-> H] | [_ H]];
    try discriminate; eauto;
    try (destruct (is_streaming (mgr w) && _); discriminate);
    try (injection H as <-; eauto).
  - destruct rd as [f|]; [|discriminate]. injection H as ->. now apply Hrd.
  - destruct rd; discriminate.
Qed.

Lemma get_frame_step_from_reads frames j w w' :
  from_reads frames w -> get_frame_step j w = Some w' -> from_reads frames w'.
Proof.
  intros (If & Il & Ir) Hstep.
  destruct (readers w !! j) as [p|] eqn:Hp;
    [|unfold Camera.get_frame_step in Hstep; rewrite Hp in Hstep; discriminate].
  rewrite (reader_step_at j w p Hp) in Hstep.
  destruct p;
    try match type of Hstep with
      | match lock (mgr w) with Some _ => _ | None => _ end = _ =>
          destruct (lock (mgr w))
      end;
    try discriminate; injection Hstep as <-;
    (split; [|split]); simpl; auto;
    intros k s H;
    destruct H as [H | H]; apply lookup_insert_cases in H as [[-> H] | [_ H]];
    try discriminate; eauto.
  - destruct (frame (mgr w)); discriminate.
  - destruct (frame (mgr w)); discriminate.
  - destruct (frame (mgr w)) as [f|] eqn:Hf; [|discriminate].
    destruct (imencode f) as [jpeg|] eqn:He; [|discriminate].
    injection H as ->. eauto 6.
  - destruct (frame (mgr w)) as [f|]; [destruct (imencode f)|]; discriminate.
  - injection H as <-. apply (Ir j s). now left.
Qed.

Lemma step_from_reads frames w e w' :
  from_reads frames w -> step w e = Some w' ->
  from_reads (frames ++ offered [e]) w'.
Proof.
  intros Hinv Hstep.
  assert (Hmono : from_reads (frames ++ offered [e]) w).
  { apply (from_reads_mono frames); [|exact Hinv].
    intros f Hf. apply elem_of_app. now left. }
  destruct e as [id env|url env| | |k rd|j]; simpl in Hstep.
  - injection Hstep as <-. destruct (connect_threads id env w) as (_ & Hr & Hl).
    apply (from_reads_new_loop _ w); auto using connect_frame.
  - injection Hstep as <-. destruct (connect_ip_threads url env w) as (_ & Hr & Hl).
    apply (from_reads_new_loop _ w); auto using connect_ip_frame.
  - injection Hstep as <-. destruct (disconnect_fields w) as (Hm & Hl & Hr & _).
    destruct Hmono as (_ & Il & Ir). unfold from_reads. rewrite Hm, Hl, Hr. simpl.
    repeat split; auto. discriminate.
  - injection Hstep as <-. destruct Hmono as (If & Il & Ir).
    repeat split; simpl; auto. intros j s H. apply (Ir j s).
    destruct H as [H | H]; apply Camera.lookup_snoc_Some in H as [H | H];
      auto; discriminate.
  - apply (capture_loop_step_from_reads _ k rd w w'); auto.
    intros f ->. unfold offered. simpl. apply elem_of_app. right.
    apply list_elem_of_here.
  - now apply (get_frame_step_from_reads _ j w w').
Qed.

Lemma run_from_reads events : forall frames w w',
  from_reads frames w -> run events w = Some w' ->
  from_reads (frames ++ offered events) w'.
Proof.
  induction events as [|e rest IH]; intros frames w w' Hinv Hrun; simpl in Hrun.
  - injection Hrun as <-. unfold offered. simpl. now rewrite app_nil_r.
  - destruct (step w e) as [w1|] eqn:Hstep; simpl in Hrun; [|discriminate].
    pose proof (IH _ _ _ (step_from_reads frames w e w1 Hinv Hstep) Hrun) as H.
    replace (frames ++ offered (e :: rest))
      with ((frames ++ offered [e]) ++ offered rest); [exact H|].
    unfold offered. simpl. now rewrite app_nil_r, app_assoc.
Qed.

(** The buffer only ever holds a frame that a [read()] of a capture thread
    was handed, and a frame request only ever returns the base64 of the JPEG
    encoding of such a frame. *)
Theorem frames_come_from_reads (events : list event) (w : world) :
  run events initial = Some w ->
  (forall f, frame (mgr w) = Some f -> f ∈ offered events)
  /\ (forall j s, readers w !! j = Some (ReadReturned (Some s)) ->
        exists f jpeg, f ∈ offered events /\ imencode f = Some jpeg
                       /\ s = b64encode jpeg).
Proof.
  intros Hrun.
  assert (H0 : from_reads [] initial).
  { repeat split; simpl; try discriminate; intros ? ? [H | H]; discriminate. }
  destruct (run_from_reads events [] initial w H0 Hrun) as (If & _ & Ir).
  simpl in If, Ir. split; [exact If|]. intros j s H. apply (Ir j s). now right.
Qed.

End Encoding.

(** [connect] and [connect_ip] are the same procedure: on the same manager
    and the same answers of the library they succeed or fail together and
    leave the same state, up to the source identity they record. *)
Theorem connect_ip_mirrors_connect (id : Z) (url : json) (env : capture)
    (w : world) :
  let usb := connect id env w in
  let ip := connect_ip url env w in
  usb.2.1 = ip.2.1
  /\ set_camera_id None usb.1 = set_camera_id None ip.1
  /\ (usb.2.1 = true ->
      camera_id (mgr usb.1) = Some (JInt id)
      /\ camera_id (mgr ip.1) = Some url)
  /\ (usb.2.1 = false -> usb.1 = ip.1).
Proof.
  destruct w as [[c cid s f l] lp rd rel nh]. unfold connect, connect_ip. simpl.
  destruct c, env as [exn|[] []]; simpl; repeat split; auto; discriminate.
Qed.

(** *** The theorems at work on concrete runs *)

(** A session with a second, failed connect behind it. *)
Definition reconnect_failed : list event :=
  [CallConnect 0 (Captured true true); LoopStep 0 None; LoopStep 0 (Some [7; 7]);
   LoopStep 0 None; CallConnectIp (JString "rtsp://cam") (Captured false false)].

Definition after_reconnect_failed : world :=
  {| mgr := {| camera := Some 1%nat; camera_id := Some (JInt 0);
               is_streaming := true; frame := None;
               lock := Some (CaptureThread 0) |};
     loops := [LoopStore [7; 7]]; readers := [];
     released := [0%nat]; next_handle := 2%nat |}.

Lemma after_reconnect_failed_run :
  run toy_imencode toy_b64encode reconnect_failed initial
  = Some after_reconnect_failed.
Proof. reflexivity. Defined.

Lemma after_reconnect_failed_reachable :
  reachable toy_imencode toy_b64encode after_reconnect_failed.
Proof. exists reconnect_failed. exact after_reconnect_failed_run. Defined.

Lemma streaming_has_source_and_loop_witness :
  reachable toy_imencode toy_b64encode after_reconnect_failed
  /\ (is_streaming (mgr after_reconnect_failed) = true ->
      camera (mgr after_reconnect_failed) <> None
      /\ (1 <= alive_loops after_reconnect_failed)%nat).
Proof.
  split; [exact after_reconnect_failed_reachable|].
  exact (proj2 (streaming_has_source_and_loop toy_imencode toy_b64encode
                  after_reconnect_failed after_reconnect_failed_reachable)).
Defined.

Lemma capture_objects_released_or_current_witness :
  reachable toy_imencode toy_b64encode after_reconnect_failed
  /\ (0 < next_handle after_reconnect_failed)%nat
  /\ (0%nat ∈ released after_reconnect_failed
      \/ camera (mgr after_reconnect_failed) = Some 0%nat).
Proof.
  assert (Hlt : (0 < next_handle after_reconnect_failed)%nat) by (simpl; lia).
  split; [exact after_reconnect_failed_reachable|]. split; [exact Hlt|].
  exact (capture_objects_released_or_current toy_imencode toy_b64encode
           after_reconnect_failed 0%nat after_reconnect_failed_reachable Hlt).
Defined.

Lemma lock_is_given_back_witness :
  reachable toy_imencode toy_b64encode after_reconnect_failed
  /\ lock (mgr after_reconnect_failed) = Some (CaptureThread 0)
  /\ inside after_reconnect_failed (CaptureThread 0).
Proof.
  split; [exact after_reconnect_failed_reachable|]. split; [reflexivity|].
  exact (proj1 (lock_is_given_back toy_imencode toy_b64encode
                  after_reconnect_failed (CaptureThread 0)
                  after_reconnect_failed_reachable eq_refl)).
Defined.

Definition winding_down : list event :=
  [LoopStep 0 None; CallGetFrame; LoopStep 0 None; ReaderStep 0;
   LoopStep 0 None; LoopStep 0 None].

Lemma winding_down_no_connect : Forall no_connect winding_down.
Proof. repeat (apply List.Forall_cons; [exact I|]). apply List.Forall_nil. Defined.

Lemma winding_down_run :
  run toy_imencode toy_b64encode winding_down (disconnect after_reconnect_failed)
  = Some {| mgr := {| camera := None; camera_id := None; is_streaming := false;
                      frame := Some [7; 7]; lock := Some (FrameRequest 0) |};
            loops := [LoopExited]; readers := [ReadTest];
            released := [0%nat; 1%nat]; next_handle := 2%nat |}.
Proof. reflexivity. Defined.

Lemma disconnect_stops_capture_threads_witness :
  Forall no_connect winding_down
  /\ (steps_of 0 winding_down <= 5)%nat.
Proof.
  split; [exact winding_down_no_connect|].
  exact (proj1 (disconnect_stops_capture_threads toy_imencode toy_b64encode
                  after_reconnect_failed _ winding_down 0
                  winding_down_no_connect winding_down_run)).
Defined.

(** A session whose capture thread has stored a frame, and a frame request
    that was answered with it. *)
Definition frame_served : list event :=
  [CallConnect 0 (Captured true true); LoopStep 0 None; LoopStep 0 (Some [7; 7]);
   LoopStep 0 None; LoopStep 0 None; LoopStep 0 None;
   CallGetFrame; ReaderStep 0; ReaderStep 0; ReaderStep 0; ReaderStep 0].

Definition after_frame_served : world :=
  {| mgr := {| camera := Some 0%nat; camera_id := Some (JInt 0);
               is_streaming := true; frame := Some [7; 7]; lock := None |};
     loops := [LoopSleep]; readers := [ReadReturned (Some "2")];
     released := []; next_handle := 1%nat |}.

Lemma after_frame_served_run :
  run toy_imencode toy_b64encode frame_served initial = Some after_frame_served.
Proof. reflexivity. Defined.

Lemma frames_come_from_reads_witness :
  run toy_imencode toy_b64encode frame_served initial = Some after_frame_served
  /\ [7; 7] ∈ offered frame_served
  /\ exists f jpeg, f ∈ offered frame_served /\ toy_imencode f = Some jpeg
                    /\ "2" = toy_b64encode jpeg.
Proof.
  split; [exact after_frame_served_run|].
  destruct (frames_come_from_reads toy_imencode toy_b64encode frame_served
              after_frame_served after_frame_served_run) as [Hbuffer Hanswer].
  split; [exact (Hbuffer [7; 7] eq_refl)|exact (Hanswer 0%nat "2" eq_refl)].
Defined.

End CameraFacts.

(** ** The routes: sessions, the two decorators and the request handlers *)

Module App.
Import Json PyNum.

Definition ADMIN_USER : string := "Tug".
Definition ADMIN_PASS : string := "Tugdual07".

(** The Flask session of a client: the keys ['user'] and ['is_admin'], and
    the messages passed to [flash()] so far (the templates that show
    them are not part of the program text). *)
Record session : Type := Session {
  user : option string;
  is_admin : option bool;
  flashed : list string
}.

Definition anonymous : session :=
  {| user := None; is_admin := None; flashed := [] |}.

(** [flash(msg)] *)
Definition flash (msg : string) (s : session) : session :=
  {| user := user s; is_admin := is_admin s; flashed := (flashed s ++ [msg])%list |}.

(** The process-wide objects: [camera_mgr], [zone_config] with its file,
    [training_status], and the training threads started so far. *)
Record state : Type := State {
  camera_mgr : Camera.world;
  zones : Zones.store;
  training_status : Training.training_status;
  workers : list Training.worker
}.

Definition set_camera_mgr (c : Camera.world) (a : state) : state :=
  {| camera_mgr := c; zones := zones a; training_status := training_status a;
     workers := workers a |}.
Definition set_zones (z : Zones.store) (a : state) : state :=
  {| camera_mgr := camera_mgr a; zones := z; training_status := training_status a;
     workers := workers a |}.
Definition set_training (t : Training.training_status)
    (started : option Training.worker) (a : state) : state :=
  {| camera_mgr := camera_mgr a; zones := zones a; training_status := t;
     workers := match started with
                | Some w => (workers a ++ [w])%list
                | None => workers a
                end |}.

(** What a view returns. *)
Inductive response : Type :=
| Redirect (endpoint : string)                   (* [redirect(url_for(endpoint))] *)
| Page (template : string) (context : list (string * json))
                                                 (* [render_template(...)] *)
| Reply (success : bool) (message : string)      (* [{'success', 'message'}] *)
| FrameReply (frame : string)                    (* [{'success': True, 'frame'}] *)
| StatusReply (connected : bool) (camera_id : option json)
| JsonBody (body : json)
| TrainingReply (status : Training.training_status)
| ServerError (msg : string).                    (* the view raised *)

(** The routes of the program with what a request carries to them. *)
Inductive request : Type :=
| Index
| LoginPage
| LoginPost (username password : option string)
| Logout
| Dashboard
| TrainingPage
| CameraConnect (data : json) (env : Camera.capture)
| CameraDisconnect
| CameraFrame
| CameraStatus
| ZonesSave (data : json)
| ZonesLoad
| TrainingStart (data : json)
| TrainingStatus
| TrainingStop.

(** A view, run in one piece on the session of the request and the state
    of the process. *)
Definition view : Type := session -> state -> session * state * response.

(** *** The decorators *)

Definition login_required (f : view) : view :=
  fun s a =>
    match user s with
    | None => (s, a, Redirect "login")
    | Some _ => f s a
    end.

Definition admin_required (f : view) : view :=
  fun s a =>
    match user s with
    | Some u =>
        if String.eqb u ADMIN_USER then f s a
        else (flash "Admin access required" s, a, Redirect "dashboard")
    | None => (flash "Admin access required" s, a, Redirect "dashboard")
    end.

(** *** The pages *)

Definition index : view :=
  fun s a =>
    (s, a, Redirect (match user s with Some _ => "dashboard" | None => "login" end)).

Definition login_get : view :=
  fun s a => (s, a, Page "login.html" []).

Definition login_post (username password : option string) : view :=
  fun s a =>
    match username, password with
    | Some u, Some p =>
        if String.eqb u ADMIN_USER && String.eqb p ADMIN_PASS then
          (flash "Welcome, Admin!"
             {| user := Some u; is_admin := Some true; flashed := flashed s |},
           a, Redirect "dashboard")
        else (flash "Invalid credentials" s, a, Page "login.html" [])
    | _, _ => (flash "Invalid credentials" s, a, Page "login.html" [])
    end.

Definition logout : view :=
  fun s a =>
    (flash "Logged out" {| user := None; is_admin := None; flashed := flashed s |},
     a, Redirect "login").

Definition dashboard : view :=
  login_required (fun s a =>
    (s, a,
     Page "dashboard.html"
       [("is_admin", JBool (default false (is_admin s)));
        ("camera_connected",
         JBool (bool_decide (Camera.camera (Camera.mgr (camera_mgr a)) <> None)))])).

Definition training_page : view :=
  login_required (admin_required (fun s a => (s, a, Page "training.html" []))).

Section Handlers.

Variable imencode : Camera.image -> option (list Byte.byte).
Variable b64encode : list Byte.byte -> string.
Variable int_of_str : string -> py Z.

(** The body of [camera_connect].  [cam_type == 'usb'] holds of the string
    ['usb'] only; with any other value of ['type'] the value under ['url'],
    whatever it is, goes to [connect_ip]. *)
Definition camera_connect_body (data : json) (env : Camera.capture) : view :=
  fun s a =>
    match data with
    | JObject fields =>
        let cam_type := dict_get_default "type" (JString "usb") fields in
        let cam_id := dict_get_default "camera_id" (JInt 0) fields in
        match cam_type with
        | JString "usb" =>
            match Training.py_int int_of_str cam_id with
            | Value n =>
                let r := Camera.connect n env (camera_mgr a) in
                (s, set_camera_mgr r.1 a, Reply r.2.1 r.2.2)
            | Raise msg => (s, a, ServerError msg)
            end
        | _ =>
            let url := dict_get_default "url" (JString "") fields in
            let r := Camera.connect_ip url env (camera_mgr a) in
            (s, set_camera_mgr r.1 a, Reply r.2.1 r.2.2)
        end
    | _ => (s, a, ServerError "object has no attribute 'get'")
    end.

Definition camera_connect (data : json) (env : Camera.capture) : view :=
  login_required (camera_connect_body data env).

Definition camera_disconnect : view :=
  login_required (fun s a =>
    (s, set_camera_mgr (Camera.disconnect (camera_mgr a)) a,
     Reply true "Camera disconnected")).

(** [if frame:] holds of a string that is not empty. *)
Definition camera_frame : view :=
  login_required (fun s a =>
    (s, a,
     match Camera.get_frame_base64 imencode b64encode (camera_mgr a) with
     | Some (String c rest) => FrameReply (String c rest)
     | Some EmptyString | None => Reply false "No frame available"
     end)).

Definition camera_status : view :=
  login_required (fun s a =>
    let st := Camera.camera_status (camera_mgr a) in
    (s, a, StatusReply st.1 st.2)).

Definition save_zones (data : json) : view :=
  login_required (fun s a =>
    let r := Zones.save_zones data (zones a) in
    (s, set_zones r.1 a,
     match r.2 with
     | Zones.Body b => JsonBody b
     | Zones.Raised exn => ServerError exn
     end)).

Definition load_zones : view :=
  login_required (fun s a =>
    let r := Zones.load_zones (zones a) in
    (s, set_zones r.1 a,
     match r.2 with
     | Zones.Body b => JsonBody b
     | Zones.Raised exn => ServerError exn
     end)).

Definition start_training (data : json) : view :=
  login_required (admin_required (fun s a =>
    let r := Training.start_training int_of_str data (training_status a) in
    match r.2 with
    | Training.Answered reply started =>
        (s, set_training r.1 started a,
         Reply (Training.success reply) (Training.reply_message reply))
    | Training.Raised msg => (s, set_training r.1 None a, ServerError msg)
    end)).

Definition get_training_status : view :=
  login_required (admin_required (fun s a =>
    (s, a, TrainingReply (Training.get_training_status (training_status a))))).

Definition stop_training : view :=
  login_required (admin_required (fun s a =>
    let r := Training.stop_training (training_status a) in
    (s, set_training r.1 None a,
     Reply (Training.success r.2) (Training.reply_message r.2)))).

(** [app.route]: the view of each route. *)
Definition handle (r : request) : view :=
  match r with
  | Index => index
  | LoginPage => login_get
  | LoginPost u p => login_post u p
  | Logout => logout
  | Dashboard => dashboard
  | TrainingPage => training_page
  | CameraConnect data env => camera_connect data env
  | CameraDisconnect => camera_disconnect
  | CameraFrame => camera_frame
  | CameraStatus => camera_status
  | ZonesSave data => save_zones data
  | ZonesLoad => load_zones
  | TrainingStart data => start_training data
  | TrainingStatus => get_training_status
  | TrainingStop => stop_training
  end.

(** A client sending requests one after the other, each with the session
    the previous answer left it. *)
Fixpoint serve (requests : list request) (s : session) (a : state)
    : session * state :=
  match requests with
  | [] => (s, a)
  | r :: rest => serve rest (handle r s a).1.1 (handle r s a).1.2
  end.

(** The routes behind [@login_required], and those behind
    [@admin_required] as well. *)
Definition protected (r : request) : bool :=
  match r with
  | Index | LoginPage | LoginPost _ _ | Logout => false
  | _ => true
  end.

Definition admin_only (r : request) : bool :=
  match r with
  | TrainingPage | TrainingStart _ | TrainingStatus | TrainingStop => true
  | _ => false
  end.

(** *** Facts about the routes *)

Ltac open_view :=
  unfold handle, camera_connect, camera_disconnect, camera_frame, camera_status,
    save_zones, load_zones, start_training, get_training_status, stop_training,
    dashboard, training_page, index, login_get, login_post, logout,
    login_required, admin_required, camera_connect_body.

(** What one request does to the session: nothing to ['user'] and
    ['is_admin'], unless it is a login with the credentials of the
    administrator, or a logout. *)
Lemma handle_session r s a s' a' resp :
  handle r s a = (s', a', resp) ->
  (user s' = user s /\ is_admin s' = is_admin s)
  \/ (user s' = Some ADMIN_USER /\ is_admin s' = Some true /\ a' = a
      /\ r = LoginPost (Some ADMIN_USER) (Some ADMIN_PASS))
  \/ (user s' = None /\ is_admin s' = None /\ r = Logout).
Proof.
  destruct r; open_view; intros H;
    repeat match type of H with
      | context [match ?x with _ => _ end] => destruct x eqn:?
      end;
    injection H as <- <- <-; simpl; auto.
  all: try (right; right; auto; fail).
  right. left.
  match goal with
  | E : _ && _ = true |- _ => apply andb_true_iff in E as [E1 E2]
  end.
  apply String.eqb_eq in E1, E2. subst. auto.
Qed.

Definition known (s : session) : Prop :=
  (user s = None /\ is_admin s = None)
  \/ (user s = Some ADMIN_USER /\ is_admin s = Some true).

Lemma serve_known requests : forall s a,
  known s -> known (serve requests s a).1.
Proof.
  induction requests as [|r rest IH]; intros s a Hk; simpl; [exact Hk|].
  apply IH.
  destruct (handle r s a) as [[s1 a1] resp] eqn:Hr. simpl.
  destruct (handle_session r s a s1 a1 resp Hr)
    as [[Hu Ha] | [(Hu & Ha & _) | (Hu & Ha & _)]];
    unfold known in *; rewrite ?Hu, ?Ha; auto.
Qed.

(** A request without ['user'] in its session never reaches the body of a
    protected route: whatever the route and what it carries, the answer is a
    redirect to the login page, and the camera manager, the zones, the
    training status and the session are left as they were. *)
Theorem anonymous_requests_are_turned_away (r : request) (s : session) (a : state) :
  user s = None -> protected r = true ->
  handle r s a = (s, a, Redirect "login").
Proof.
  intros Hu Hp. destruct r; try discriminate; open_view; now rewrite Hu.
Qed.

(** The training routes turn away a session whose user is not the
    administrator: the answer is a redirect to the dashboard after the flash
    ['Admin access required'], and nothing of the process state changes. *)
Theorem training_routes_need_the_admin (r : request) (s : session) (a : state)
    (u : string) :
  user s = Some u -> u <> ADMIN_USER -> admin_only r = true ->
  handle r s a = (flash "Admin access required" s, a, Redirect "dashboard").
Proof.
  intros Hu Hne Ha.
  assert (E : String.eqb u ADMIN_USER = false) by now apply String.eqb_neq.
  destruct r; try discriminate; open_view; now rewrite Hu, E.
Qed.

(** Only a login with the name and the password of the administrator puts a
    user into a session that had none; it changes nothing else. *)
Theorem only_admin_credentials_log_in (r : request) (s s' : session)
    (a a' : state) (resp : response) :
  user s = None -> handle r s a = (s', a', resp) -> user s' <> None ->
  r = LoginPost (Some ADMIN_USER) (Some ADMIN_PASS)
  /\ user s' = Some ADMIN_USER /\ is_admin s' = Some true /\ a' = a
  /\ resp = Redirect "dashboard".
Proof.
  intros Hu Hr Hs'.
  destruct (handle_session r s a s' a' resp Hr)
    as [[Hu' _] | [(Hu' & Ha & Haa & ->) | (Hu' & _)]]; try congruence.
  repeat split; auto. simpl in Hr. unfold login_post in Hr. simpl in Hr.
  now injection Hr as _ _ <-.
Qed.

(** Every session the routes hand to a client that started without one is
    either without a user, or the administrator's with [is_admin] true,
    whatever the requests and what they carry: the admin check of the
    training routes never turns away a session that is logged in. *)
Theorem sessions_are_anonymous_or_admin (requests : list request) (a : state) :
  let served := serve requests anonymous a in
  ((user served.1 = None /\ is_admin served.1 = None)
   \/ (user served.1 = Some ADMIN_USER /\ is_admin served.1 = Some true))
  /\ (user served.1 <> None ->
      admin_required (fun s a => (s, a, Redirect "ok")) served.1 served.2
      = (served.1, served.2, Redirect "ok")).
Proof.
  intros served.
  assert (Hk : known served.1).
  { apply (serve_known requests anonymous a). now left. }
  split; [exact Hk|]. intros Hne. unfold admin_required.
  destruct Hk as [[Hu _] | [Hu _]]; [congruence|]. now rewrite Hu.
Qed.

(** After a logout the session is turned away from every protected route,
    and the index sends it to the login page. *)
Theorem logout_closes_the_session (r : request) (s : session) (a a' : state) :
  protected r = true ->
  exists s',
    handle Logout s a = (s', a, Redirect "login")
    /\ user s' = None /\ is_admin s' = None
    /\ handle r s' a' = (s', a', Redirect "login")
    /\ handle Index s' a' = (s', a', Redirect "login").
Proof.
  intros Hp. eexists. split; [reflexivity|]. simpl.
  repeat split. destruct r; try discriminate; reflexivity.
Qed.

(** A disconnect request always answers success.  Whatever the capture
    threads and the frame requests under way do after it, as long as no
    connect request comes in, a status poll reports a session that is not
    connected; and a frame poll reports no frame, provided no capture thread
    stood between its [read()] and its store when the disconnect ran. *)
Theorem disconnect_request_then_polls (s : session) (a : state) (u : string)
    (events : list Camera.event) (w' : Camera.world) :
  user s = Some u ->
  Forall CameraFacts.no_connect events ->
  Camera.run imencode b64encode events (Camera.disconnect (camera_mgr a)) = Some w' ->
  let a1 := set_camera_mgr (Camera.disconnect (camera_mgr a)) a in
  let a2 := set_camera_mgr w' a in
  handle CameraDisconnect s a = (s, a1, Reply true "Camera disconnected")
  /\ handle CameraStatus s a2 = (s, a2, StatusReply false None)
  /\ (Forall (fun p => CameraFacts.holds_frame p = false)
             (Camera.loops (camera_mgr a)) ->
      handle CameraFrame s a2 = (s, a2, Reply false "No frame available")).
Proof.
  intros Hu Hall Hrun a1 a2.
  destruct (Camera.disconnect_fields (camera_mgr a)) as (Hm & Hl & _).
  destruct (CameraFacts.run_disconnected imencode b64encode events
              (Camera.disconnect (camera_mgr a)) w')
    as ([Hs Hc] & Hid & Hframe);
    [unfold CameraFacts.stopped; now rewrite Hm|now rewrite Hm|exact Hall
    |exact Hrun|].
  open_view. rewrite Hu. subst a1 a2. cbn [camera_mgr set_camera_mgr].
  split; [reflexivity|]. split.
  - unfold Camera.camera_status. rewrite Hc, Hid. reflexivity.
  - intros Hloops. destruct Hframe as [Hf _].
    { unfold CameraFacts.no_frame_left. rewrite Hm, Hl. auto. }
    unfold Camera.get_frame_base64. now rewrite Hf.
Qed.

(** The frame route changes nothing and sends a frame exactly when
    [get_frame_base64] returns a string that is not empty. *)
Theorem camera_frame_sends_nonempty (s : session) (a : state) (u : string) :
  user s = Some u ->
  exists resp,
    handle CameraFrame s a = (s, a, resp)
    /\ (forall f, resp = FrameReply f <->
          Camera.get_frame_base64 imencode b64encode (camera_mgr a) = Some f
          /\ f <> "")
    /\ (resp = Reply false "No frame available" \/ exists f, resp = FrameReply f).
Proof.
  intros Hu. open_view. rewrite Hu. eexists. split; [reflexivity|].
  destruct (Camera.get_frame_base64 imencode b64encode (camera_mgr a))
    as [[|c rest]|]; split; eauto;
    intros f; split; try (intros [H1 H2]); try intros H; try discriminate;
    try congruence.
  - injection H as <-. split; [reflexivity|discriminate].
Qed.

(** A connect request without a ['type'] is a USB request.  Its
    ['camera_id'] (0 when missing) goes through [int()]: when that raises,
    the request fails before the camera manager is touched, so the capture
    object in place is not released; otherwise the answer is that of
    [connect] on the converted index. *)
Theorem usb_connect_converts_camera_id (fields : list (string * json))
    (env : Camera.capture) (s : session) (a : state) (u : string) :
  user s = Some u -> dict_get "type" fields = None ->
  match Training.py_int int_of_str (dict_get_default "camera_id" (JInt 0) fields) with
  | Value n =>
      handle (CameraConnect (JObject fields) env) s a
      = (s, set_camera_mgr (Camera.connect n env (camera_mgr a)).1 a,
         Reply (Camera.connect n env (camera_mgr a)).2.1
               (Camera.connect n env (camera_mgr a)).2.2)
  | Raise msg =>
      handle (CameraConnect (JObject fields) env) s a = (s, a, ServerError msg)
  end
  /\ (dict_get "camera_id" fields = None ->
      dict_get_default "camera_id" (JInt 0) fields = JInt 0).
Proof.
  intros Hu Hty. split.
  - assert (Hty' : dict_get_default "type" (JString "usb") fields = JString "usb").
    { unfold dict_get_default. now rewrite Hty. }
    destruct (Training.py_int int_of_str
                (dict_get_default "camera_id" (JInt 0) fields)) eqn:E;
      open_view; rewrite Hu, Hty', E; reflexivity.
  - intros H. unfold dict_get_default. now rewrite H.
Qed.

End Handlers.

(** *** The theorems at work on concrete requests *)

(** The state of the process when it starts. *)
Definition initial_state : state :=
  {| camera_mgr := Camera.initial; zones := Zones.initial Zones.Absent true;
     training_status := Training.initial_status; workers := [] |}.

Definition toy_handle : request -> view :=
  handle Camera.toy_imencode Camera.toy_b64encode Training.toy_int_of_str.

Definition admin_session : session :=
  {| user := Some ADMIN_USER; is_admin := Some true; flashed := ["Welcome, Admin!"] |}.

Definition guest_session : session :=
  {| user := Some "guest"; is_admin := None; flashed := [] |}.

Lemma anonymous_requests_are_turned_away_witness :
  user anonymous = None
  /\ protected (TrainingStart (JObject [("epochs", JInt 3)])) = true
  /\ toy_handle (TrainingStart (JObject [("epochs", JInt 3)])) anonymous initial_state
     = (anonymous, initial_state, Redirect "login").
Proof.
  split; [reflexivity|]. split; [reflexivity|].
  exact (anonymous_requests_are_turned_away Camera.toy_imencode Camera.toy_b64encode
           Training.toy_int_of_str (TrainingStart (JObject [("epochs", JInt 3)]))
           anonymous initial_state eq_refl eq_refl).
Defined.

Lemma guest_is_not_admin : "guest" <> ADMIN_USER.
Proof. discriminate. Defined.

Lemma training_routes_need_the_admin_witness :
  user guest_session = Some "guest" /\ "guest" <> ADMIN_USER
  /\ admin_only TrainingStop = true
  /\ toy_handle TrainingStop guest_session initial_state
     = (flash "Admin access required" guest_session, initial_state,
        Redirect "dashboard").
Proof.
  split; [reflexivity|]. split; [exact guest_is_not_admin|]. split; [reflexivity|].
  exact (training_routes_need_the_admin Camera.toy_imencode Camera.toy_b64encode
           Training.toy_int_of_str TrainingStop guest_session initial_state "guest"
           eq_refl guest_is_not_admin eq_refl).
Defined.

Lemma admin_logs_in :
  toy_handle (LoginPost (Some ADMIN_USER) (Some ADMIN_PASS)) anonymous initial_state
  = (admin_session, initial_state, Redirect "dashboard").
Proof. reflexivity. Defined.

Lemma admin_session_has_user : user admin_session <> None.
Proof. discriminate. Defined.

Lemma only_admin_credentials_log_in_witness :
  user anonymous = None
  /\ toy_handle (LoginPost (Some ADMIN_USER) (Some ADMIN_PASS)) anonymous initial_state
     = (admin_session, initial_state, Redirect "dashboard")
  /\ user admin_session <> None
  /\ is_admin admin_session = Some true.
Proof.
  split; [reflexivity|]. split; [exact admin_logs_in|].
  split; [exact admin_session_has_user|].
  exact (proj1 (proj2 (proj2
           (only_admin_credentials_log_in Camera.toy_imencode Camera.toy_b64encode
              Training.toy_int_of_str _ anonymous admin_session initial_state
              initial_state _ eq_refl admin_logs_in admin_session_has_user)))).
Defined.

(** A visit with a failed login, a login, an IP connect whose ['url'] is a
    number, and a save. *)
Definition a_visit : list request :=
  [Dashboard; LoginPost (Some "Tug") (Some "tug");
   LoginPost (Some ADMIN_USER) (Some ADMIN_PASS);
   CameraConnect (JObject [("type", JString "ip"); ("url", JInt 0)])
     (Camera.Captured true true);
   ZonesSave Zones.example_body; TrainingStatus].

Definition after_a_visit : session * state :=
  ({| user := Some ADMIN_USER; is_admin := Some true;
      flashed := ["Invalid credentials"; "Welcome, Admin!"] |},
   set_camera_mgr
     (Camera.connect_ip (JInt 0) (Camera.Captured true true) Camera.initial).1
     (set_zones (Zones.save_zones Zones.example_body
                   (Zones.initial Zones.Absent true)).1
        initial_state)).

Lemma a_visit_served :
  serve Camera.toy_imencode Camera.toy_b64encode Training.toy_int_of_str
    a_visit anonymous initial_state = after_a_visit.
Proof. reflexivity. Defined.

Lemma sessions_are_anonymous_or_admin_witness :
  user after_a_visit.1 = Some ADMIN_USER /\ is_admin after_a_visit.1 = Some true
  /\ Camera.camera_id (Camera.mgr (camera_mgr after_a_visit.2)) = Some (JInt 0)
  /\ ((user after_a_visit.1 = None /\ is_admin after_a_visit.1 = None)
      \/ (user after_a_visit.1 = Some ADMIN_USER
          /\ is_admin after_a_visit.1 = Some true)).
Proof.
  split; [reflexivity|]. split; [reflexivity|]. split; [reflexivity|].
  exact (proj1 (sessions_are_anonymous_or_admin Camera.toy_imencode
                  Camera.toy_b64encode Training.toy_int_of_str a_visit
                  initial_state)).
Defined.

Lemma logout_closes_the_session_witness :
  protected ZonesLoad = true
  /\ exists s',
       toy_handle Logout admin_session initial_state
         = (s', initial_state, Redirect "login")
       /\ user s' = None /\ is_admin s' = None
       /\ toy_handle ZonesLoad s' initial_state
          = (s', initial_state, Redirect "login")
       /\ toy_handle Index s' initial_state
          = (s', initial_state, Redirect "login").
Proof.
  split; [reflexivity|].
  exact (logout_closes_the_session Camera.toy_imencode Camera.toy_b64encode
           Training.toy_int_of_str ZonesLoad admin_session initial_state
           initial_state eq_refl).
Defined.

(** The process with a camera connected and a frame in the buffer, its
    capture thread asleep between two reads. *)
Definition streaming_state : state :=
  set_camera_mgr
    {| Camera.mgr := {| Camera.camera := Some 0%nat;
                        Camera.camera_id := Some (JInt 0);
                        Camera.is_streaming := true;
                        Camera.frame := Some [7; 7];
                        Camera.lock := None |};
       Camera.loops := [Camera.LoopSleep]; Camera.readers := [];
       Camera.released := []; Camera.next_handle := 1%nat |}
    initial_state.

(** What the capture thread does after the disconnect: it wakes up, finds
    the flag down and ends. *)
Definition thread_ends : list Camera.event :=
  [Camera.LoopStep 0 None; Camera.LoopStep 0 None].

Definition after_thread_ends : Camera.world :=
  {| Camera.mgr := {| Camera.camera := None; Camera.camera_id := None;
                      Camera.is_streaming := false; Camera.frame := None;
                      Camera.lock := None |};
     Camera.loops := [Camera.LoopExited]; Camera.readers := [];
     Camera.released := [0%nat]; Camera.next_handle := 1%nat |}.

Lemma thread_ends_no_connect : Forall CameraFacts.no_connect thread_ends.
Proof. repeat (apply List.Forall_cons; [exact I|]). apply List.Forall_nil. Defined.

Lemma thread_ends_run :
  Camera.run Camera.toy_imencode Camera.toy_b64encode thread_ends
    (Camera.disconnect (camera_mgr streaming_state)) = Some after_thread_ends.
Proof. reflexivity. Defined.

Lemma streaming_state_threads :
  Forall (fun p => CameraFacts.holds_frame p = false)
         (Camera.loops (camera_mgr streaming_state)).
Proof. apply List.Forall_cons; [reflexivity|apply List.Forall_nil]. Defined.

Lemma disconnect_request_then_polls_witness :
  user admin_session = Some ADMIN_USER
  /\ Forall CameraFacts.no_connect thread_ends
  /\ Camera.run Camera.toy_imencode Camera.toy_b64encode thread_ends
       (Camera.disconnect (camera_mgr streaming_state)) = Some after_thread_ends
  /\ Forall (fun p => CameraFacts.holds_frame p = false)
            (Camera.loops (camera_mgr streaming_state))
  /\ toy_handle CameraFrame admin_session streaming_state
     = (admin_session, streaming_state, FrameReply "2")
  /\ toy_handle CameraFrame admin_session
       (set_camera_mgr after_thread_ends streaming_state)
     = (admin_session, set_camera_mgr after_thread_ends streaming_state,
        Reply false "No frame available").
Proof.
  split; [reflexivity|]. split; [exact thread_ends_no_connect|].
  split; [exact thread_ends_run|]. split; [exact streaming_state_threads|].
  split; [reflexivity|].
  exact (proj2 (proj2 (disconnect_request_then_polls Camera.toy_imencode
                         Camera.toy_b64encode Training.toy_int_of_str admin_session
                         streaming_state ADMIN_USER thread_ends after_thread_ends
                         eq_refl thread_ends_no_connect thread_ends_run))
           streaming_state_threads).
Defined.

Lemma camera_frame_sends_nonempty_witness :
  user admin_session = Some ADMIN_USER
  /\ exists resp,
       toy_handle CameraFrame admin_session initial_state
         = (admin_session, initial_state, resp)
       /\ (forall f, resp = FrameReply f <->
             Camera.get_frame_base64 Camera.toy_imencode Camera.toy_b64encode
               Camera.initial = Some f /\ f <> "")
       /\ (resp = Reply false "No frame available" \/ exists f, resp = FrameReply f).
Proof.
  split; [reflexivity|].
  exact (camera_frame_sends_nonempty Camera.toy_imencode Camera.toy_b64encode
           Training.toy_int_of_str admin_session initial_state ADMIN_USER eq_refl).
Defined.

Lemma usb_connect_converts_camera_id_witness :
  user admin_session = Some ADMIN_USER
  /\ dict_get "type" [("camera_id", JNull)] = None
  /\ toy_handle (CameraConnect (JObject [("camera_id", JNull)])
                   (Camera.Captured true true)) admin_session initial_state
     = (admin_session, initial_state,
        ServerError
          "int() argument must be a string, a bytes-like object or a real number").
Proof.
  split; [reflexivity|]. split; [reflexivity|].
  exact (proj1 (usb_connect_converts_camera_id Camera.toy_imencode
                  Camera.toy_b64encode Training.toy_int_of_str
                  [("camera_id", JNull)] (Camera.Captured true true)
                  admin_session initial_state ADMIN_USER eq_refl eq_refl)).
Defined.

End App.
